(** * OmniDock live voice link: audio codec helpers and playback scheduler

    A shallow embedding of the audio relay of the OmniDock widget dock
    (the [App] component and the three helpers [decode], [encode] and
    [decodeAudioData] at the top of the main module), together with the
    properties of the relay that the specification lists.

    Conventions of the embedding.
    - A JavaScript string is the list of its UTF-16 code units ([N]).
    - A [Uint8Array] is a [list byte]; an [Int16Array] a list of [Z] in
      the signed 16-bit range; typed-array reads out of range give
      [undefined] and writes out of range are ignored, which is what
      stdpp's list lookup and insert do.
    - Audio samples and times on the audio clock are JavaScript numbers.
      Every sample the codec handles is a 16-bit integer divided by 2^15,
      which binary floating point represents exactly, so samples are
      modelled as rationals ([Q]) plus [NaN].  Times are rationals where
      only their order matters (a maximum is one of its arguments, a sum
      with a duration is not smaller); where the sums themselves matter,
      module [Double] gives the scheduler with the cursor, the clock and
      the durations as the IEEE doubles the code computes with.
    - A handler that can throw returns a [Result]. *)

From Stdlib Require Import NArith ZArith QArith Qabs Qround Qminmax Lia ZifyNat ZifyN.
From Stdlib.Strings Require Import Byte Ascii String.
From Stdlib Require Import DecimalString.
From Stdlib Require PrimFloat FloatAxioms FloatOps SpecFloat FloatClass Uint63.
From stdpp Require Import base option list.

Local Open Scope N_scope.

(** ** JavaScript values *)

Definition jsstring := list N.

Inductive JsError :=
| RangeError
| TypeError
| InvalidCharacterError
| NotSupportedError.

Inductive Result (A : Type) :=
| Ok (a : A)
| Throw (e : JsError).
Arguments Ok {A} a.
Arguments Throw {A} e.

Definition rbind {A B} (r : Result A) (k : A -> Result B) : Result B :=
  match r with
  | Ok a => k a
  | Throw e => Throw e
  end.

#[global] Instance Result_bind : MBind Result := fun A B k r => rbind r k.

(** Typed-array store into a [Uint8Array] element: the number is taken
    modulo 2^8. *)
Definition to_uint8 (n : N) : byte :=
  match Byte.of_N (n mod 256) with
  | Some b => b
  | None => x00
  end.

(** ** Base64 as the platform provides it ([btoa] and [atob])

    [btoa] is the base64 encoding of RFC 4648 section 4 with padding;
    [atob] is the forgiving-base64 decoding of the WHATWG Infra standard.
    Neither is code of the repository; they are written out here because
    [encode] and [decode] are thin wrappers around them. *)

Definition pad_char : N := 61.

Definition b64_char (i : N) : N :=
  if i <? 26 then 65 + i
  else if i <? 52 then 97 + (i - 26)
  else if i <? 62 then 48 + (i - 52)
  else if i =? 62 then 43
  else 47.

Definition b64_index (c : N) : option N :=
  if (65 <=? c) && (c <=? 90) then Some (c - 65)
  else if (97 <=? c) && (c <=? 122) then Some (c - 97 + 26)
  else if (48 <=? c) && (c <=? 57) then Some (c - 48 + 52)
  else if c =? 43 then Some 62
  else if c =? 47 then Some 63
  else None.

(** The 6-bit groups of a byte sequence, three bytes making four groups;
    a last group of one or two bytes is completed with zero bits. *)
Fixpoint sextets (l : list N) : list N :=
  match l with
  | [] => []
  | [a] => [a / 4; a mod 4 * 16]
  | [a; b] => [a / 4; a mod 4 * 16 + b / 16; b mod 16 * 4]
  | a :: b :: c :: r =>
      a / 4 :: a mod 4 * 16 + b / 16 :: b mod 16 * 4 + c / 64 :: c mod 64
        :: sextets r
  end.

Definition padding (n : nat) : jsstring :=
  match (n mod 3)%nat with
  | 1%nat => [pad_char; pad_char]
  | 2%nat => [pad_char]
  | _ => []
  end.

Definition b64_encode (l : list N) : jsstring :=
  map b64_char (sextets l) ++ padding (length l).

Definition btoa (s : jsstring) : Result jsstring :=
  if forallb (fun c => c <=? 255) s then Ok (b64_encode s)
  else Throw InvalidCharacterError.

(** ASCII whitespace: tab, line feed, form feed, carriage return, space. *)
Definition is_ascii_whitespace (c : N) : bool :=
  (c =? 9) || (c =? 10) || (c =? 12) || (c =? 13) || (c =? 32).

(** Removes one or two trailing padding characters. *)
Definition strip_padding (s : jsstring) : jsstring :=
  match rev s with
  | c1 :: c2 :: r =>
      if c1 =? pad_char then
        if c2 =? pad_char then rev r else rev (c2 :: r)
      else s
  | [c1] => if c1 =? pad_char then [] else s
  | [] => s
  end.

(** Bytes of a sequence of 6-bit groups: four groups make three bytes;
    of a last group of three (two) groups the last two (four) bits are
    discarded. *)
Fixpoint unsextets (l : list N) : list N :=
  match l with
  | a :: b :: c :: d :: r =>
      a * 4 + b / 16 :: b mod 16 * 16 + c / 4 :: c mod 4 * 64 + d
        :: unsextets r
  | [a; b; c] => [a * 4 + b / 16; b mod 16 * 16 + c / 4]
  | [a; b] => [a * 4 + b / 16]
  | _ => []
  end.

Definition atob (data : jsstring) : Result jsstring :=
  let data := List.filter (fun c => negb (is_ascii_whitespace c)) data in
  let data :=
    if (length data mod 4 =? 0)%nat then strip_padding data else data in
  if (length data mod 4 =? 1)%nat then Throw InvalidCharacterError
  else
    match mapM b64_index data with
    | Some sx => Ok (unsextets sx)
    | None => Throw InvalidCharacterError
    end.

(** ** The helpers [decode] and [encode] *)

(** [decode]: [atob], then one byte per code unit of the binary string. *)
Definition decode (base64 : jsstring) : Result (list byte) :=
  binaryString ← atob base64;
  Ok (map to_uint8 binaryString).

(** [encode]: one code unit per byte ([String.fromCharCode]), then [btoa]. *)
Definition encode (bytes : list byte) : Result jsstring :=
  let binary := map Byte.to_N bytes in
  btoa binary.


Definition of_ascii_string (s : String.string) : jsstring :=
  map N_of_ascii (String.list_ascii_of_string s).

Local Close Scope N_scope.

(** ** Typed arrays and audio buffers *)

(** A JavaScript number holding an audio sample. *)
Inductive sample :=
| Num (q : Q)
| NaN.

(** Two's complement reading of a 16-bit pattern. *)
Definition wrap16 (z : Z) : Z :=
  let u := (z mod 65536)%Z in
  if (u <? 32768)%Z then u else (u - 65536)%Z.

(** One element of an [Int16Array] laid over two bytes, low byte first
    (typed arrays have the byte order of the host, little-endian on every
    platform the dock runs on). *)
Definition int16_of_bytes (lo hi : byte) : Z :=
  wrap16 (Z.of_N (Byte.to_N lo) + 256 * Z.of_N (Byte.to_N hi)).

Fixpoint int16_view (data : list byte) : list Z :=
  match data with
  | lo :: hi :: r => int16_of_bytes lo hi :: int16_view r
  | _ => []
  end.

(** [new Int16Array(buffer)]: the constructor throws a [RangeError] when
    the byte length of the buffer is not a multiple of the element size. *)
Definition new_Int16Array (data : list byte) : Result (list Z) :=
  if (length data mod 2 =? 0)%nat then Ok (int16_view data)
  else Throw RangeError.

(** The bytes under an [Int16Array] ([new Uint8Array(int16.buffer)]). *)
Definition bytes_of_int16 (v : Z) : list byte :=
  let u := (v mod 65536)%Z in
  [to_uint8 (Z.to_N (u mod 256)); to_uint8 (Z.to_N (u / 256))].

Definition int16_buffer (l : list Z) : list byte :=
  concat (map bytes_of_int16 l).

(** Truncation towards zero. *)
Definition Qtrunc (x : Q) : Z := Z.quot (Qnum x) (Zpos (Qden x)).

(** Typed-array store into an [Int16Array] element: [NaN] becomes 0, any
    other number is truncated and wrapped to 16 bits. *)
Definition to_int16 (x : sample) : Z :=
  match x with
  | Num q => wrap16 (Qtrunc q)
  | NaN => 0%Z
  end.

Definition sample_mul (x : sample) (k : Q) : sample :=
  match x with
  | Num q => Num (q * k)
  | NaN => NaN
  end.

Record AudioBuffer := {
  numberOfChannels : nat;
  buf_length : nat;
  sampleRate : positive;
  channels : list (list sample)
}.

(** [buffer.duration], in seconds. *)
Definition duration (b : AudioBuffer) : Q :=
  Z.of_nat (buf_length b) # sampleRate b.

(** The quotient [dataInt16.length / numChannels] is a number, not an
    integer; with no channels it is [Infinity] or [NaN] ([None]). *)
Definition js_div (n d : nat) : option Q :=
  match d with
  | O => None
  | S _ => Some (Z.of_nat n # Pos.of_nat d)
  end.

(** Conversion of a number to the IDL type [unsigned long]: truncation,
    and 0 for a value that is not finite.  Lengths stay far below 2^32,
    so the reduction modulo 2^32 is left out. *)
Definition to_unsigned_long (x : option Q) : nat :=
  match x with
  | Some q => Z.to_nat (Qtrunc q)
  | None => O
  end.

(** [ctx.createBuffer(numberOfChannels, length, sampleRate)] of the Web
    Audio API: a zeroed buffer, or a [NotSupportedError] when an argument
    is zero or outside its nominal range.  The ranges taken here (1 to 32
    channels, at least one frame, 8000 to 96000 Hz) are the ones every
    implementation must support; an implementation may accept more
    channels or other rates, so nothing below is stated about a call
    with more than 32 channels or a rate outside 8000 to 96000 Hz (the
    dock always asks for 1 channel at 24000 Hz). *)
Definition createBuffer (numChannels : nat) (len : option Q)
    (rate : positive) : Result AudioBuffer :=
  let n := to_unsigned_long len in
  if (1 <=? numChannels)%nat && (numChannels <=? 32)%nat && (1 <=? n)%nat
     && (8000 <=? rate)%positive && (rate <=? 96000)%positive
  then Ok {| numberOfChannels := numChannels; buf_length := n;
             sampleRate := rate;
             channels := replicate numChannels (replicate n (Num 0)) |}
  else Throw NotSupportedError.

(** [dataInt16[idx] / 32768.0]; a read past the end is [undefined], and
    [undefined / 32768.0] is [NaN]. *)
Definition pcm_sample (dataInt16 : list Z) (idx : nat) : sample :=
  match dataInt16 !! idx with
  | Some v => Num (v # 32768)
  | None => NaN
  end.

(** The number of passes of [for (let i = 0; i < frameCount; i++)].  With
    no channels the loop is not reached: [createBuffer] has thrown. *)
Definition loop_bound (frameCount : option Q) : nat :=
  match frameCount with
  | Some q => Z.to_nat (Qceiling q)
  | None => O
  end.

(** The inner loop of [decodeAudioData] on one channel; a store past the
    end of [channelData] is ignored. *)
Definition fill_channel (dataInt16 : list Z) (numChannels : nat)
    (frameCount : option Q) (channel : nat) (channelData : list sample)
    : list sample :=
  foldl (fun cd i => <[i := pcm_sample dataInt16 (i * numChannels + channel)]> cd)
        channelData (seq 0 (loop_bound frameCount)).

(** [decodeAudioData(data, ctx, sampleRate, numChannels)].  The context
    is only asked for a buffer, which every context makes alike, so it is
    not a parameter here.  The function is asynchronous; what it throws
    rejects its promise. *)
Definition decodeAudioData (data : list byte) (rate : positive)
    (numChannels : nat) : Result AudioBuffer :=
  dataInt16 ← new_Int16Array data;
  let frameCount := js_div (length dataInt16) numChannels in
  buffer ← createBuffer numChannels frameCount rate;
  Ok {| numberOfChannels := numberOfChannels buffer;
        buf_length := buf_length buffer;
        sampleRate := sampleRate buffer;
        channels :=
          foldl (fun chans channel =>
                   alter (fill_channel dataInt16 numChannels frameCount channel)
                         channel chans)
                (channels buffer) (seq 0 numChannels) |}.

(** The planar layout of interleaved 16-bit frames: for every channel,
    the samples of the first [frames] frames. *)
Definition planar (dataInt16 : list Z) (numChannels frames : nat)
    : list (list sample) :=
  map (fun channel =>
         map (fun i => pcm_sample dataInt16 (i * numChannels + channel))
             (seq 0 frames))
      (seq 0 numChannels).

(** ** The outbound encoder ([processor.onaudioprocess]) *)

Definition quantize (input : list sample) : list Z :=
  map (fun x => to_int16 (sample_mul x 32768)) input.

Definition outbound_payload (input : list sample) : Result jsstring :=
  encode (int16_buffer (quantize input)).

(** ** Inbound messages *)

Record Blob := { data : option jsstring }.
Record Part := { inlineData : option Blob }.
Record Content := { parts : option (list Part) }.
Record LiveServerContent := { modelTurn : option Content }.
Record LiveServerMessage := { serverContent : option LiveServerContent }.

(** [msg.serverContent?.modelTurn?.parts[0]?.inlineData?.data]: indexing
    [parts] is not guarded, so a model turn without parts throws. *)
Definition audio_payload (msg : LiveServerMessage) : Result (option jsstring) :=
  match serverContent msg with
  | None => Ok None
  | Some sc =>
      match modelTurn sc with
      | None => Ok None
      | Some mt =>
          match parts mt with
          | None => Throw TypeError
          | Some ps =>
              match ps !! 0%nat with
              | None => Ok None
              | Some p =>
                  match inlineData p with
                  | None => Ok None
                  | Some blob => Ok (data blob)
                  end
              end
          end
      end
  end.

(** Truthiness of an optional string: defined and not empty. *)
Definition truthy (s : option jsstring) : option jsstring :=
  match s with
  | Some (c :: r) => Some (c :: r)
  | _ => None
  end.

(** ** The component state *)

(** An [AudioBufferSourceNode] that was started: its buffer, the context
    whose destination it is connected to, the time given to [start], and
    whether [stop] was called on it. *)
Record Source := {
  src_buffer : AudioBuffer;
  src_ctx : nat;
  src_start : Q;
  src_stopped : bool
}.

Definition src_end (s : Source) : Q := src_start s + duration (src_buffer s).

Record LiveHandle := { lh_session : nat; lh_stream : nat; lh_inCtx : nat }.

Inductive SessionStatus := Opening | Open | Closed.

Inductive ConsoleLine :=
| console_debug (text : String.string)
| console_error (e : String.string).

Record State := {
  isLiveActive : bool;
  liveSessionRef : option LiveHandle;
  audioContextRef : option nat;
  nextStartTimeRef : Q;
  sourcesRef : list Source;
  (* the platform: audio contexts by sample rate and whether closed,
     remote sessions, microphone streams and whether their tracks are
     live, realtime inputs sent, console output *)
  audioContexts : list (positive * bool);
  sessions : list SessionStatus;
  micStreams : list bool;
  sent : list (nat * jsstring);
  console : list ConsoleLine
}.

Definition initial : State := {|
  isLiveActive := false;
  liveSessionRef := None;
  audioContextRef := None;
  nextStartTimeRef := 0;
  sourcesRef := [];
  audioContexts := [];
  sessions := [];
  micStreams := [];
  sent := [];
  console := []
|}.

Definition setIsLiveActive (b : bool) (st : State) : State :=
  {| isLiveActive := b;
     liveSessionRef := liveSessionRef st;
     audioContextRef := audioContextRef st;
     nextStartTimeRef := nextStartTimeRef st;
     sourcesRef := sourcesRef st;
     audioContexts := audioContexts st;
     sessions := sessions st;
     micStreams := micStreams st;
     sent := sent st;
     console := console st |}.

Definition set_nextStartTime (t : Q) (st : State) : State :=
  {| isLiveActive := isLiveActive st;
     liveSessionRef := liveSessionRef st;
     audioContextRef := audioContextRef st;
     nextStartTimeRef := t;
     sourcesRef := sourcesRef st;
     audioContexts := audioContexts st;
     sessions := sessions st;
     micStreams := micStreams st;
     sent := sent st;
     console := console st |}.

Definition add_source (s : Source) (st : State) : State :=
  {| isLiveActive := isLiveActive st;
     liveSessionRef := liveSessionRef st;
     audioContextRef := audioContextRef st;
     nextStartTimeRef := nextStartTimeRef st;
     sourcesRef := sourcesRef st ++ [s];
     audioContexts := audioContexts st;
     sessions := sessions st;
     micStreams := micStreams st;
     sent := sent st;
     console := console st |}.

Definition log (l : ConsoleLine) (st : State) : State :=
  {| isLiveActive := isLiveActive st;
     liveSessionRef := liveSessionRef st;
     audioContextRef := audioContextRef st;
     nextStartTimeRef := nextStartTimeRef st;
     sourcesRef := sourcesRef st;
     audioContexts := audioContexts st;
     sessions := sessions st;
     micStreams := micStreams st;
     sent := sent st;
     console := console st ++ [l] |}.

Definition set_liveSessionRef (h : LiveHandle) (st : State) : State :=
  {| isLiveActive := isLiveActive st;
     liveSessionRef := Some h;
     audioContextRef := audioContextRef st;
     nextStartTimeRef := nextStartTimeRef st;
     sourcesRef := sourcesRef st;
     audioContexts := audioContexts st;
     sessions := sessions st;
     micStreams := micStreams st;
     sent := sent st;
     console := console st |}.

Definition set_audioContextRef (ctx : nat) (st : State) : State :=
  {| isLiveActive := isLiveActive st;
     liveSessionRef := liveSessionRef st;
     audioContextRef := Some ctx;
     nextStartTimeRef := nextStartTimeRef st;
     sourcesRef := sourcesRef st;
     audioContexts := audioContexts st;
     sessions := sessions st;
     micStreams := micStreams st;
     sent := sent st;
     console := console st |}.

Definition set_audioContexts (l : list (positive * bool)) (st : State) : State :=
  {| isLiveActive := isLiveActive st;
     liveSessionRef := liveSessionRef st;
     audioContextRef := audioContextRef st;
     nextStartTimeRef := nextStartTimeRef st;
     sourcesRef := sourcesRef st;
     audioContexts := l;
     sessions := sessions st;
     micStreams := micStreams st;
     sent := sent st;
     console := console st |}.

Definition set_sessions (l : list SessionStatus) (st : State) : State :=
  {| isLiveActive := isLiveActive st;
     liveSessionRef := liveSessionRef st;
     audioContextRef := audioContextRef st;
     nextStartTimeRef := nextStartTimeRef st;
     sourcesRef := sourcesRef st;
     audioContexts := audioContexts st;
     sessions := l;
     micStreams := micStreams st;
     sent := sent st;
     console := console st |}.

Definition set_micStreams (l : list bool) (st : State) : State :=
  {| isLiveActive := isLiveActive st;
     liveSessionRef := liveSessionRef st;
     audioContextRef := audioContextRef st;
     nextStartTimeRef := nextStartTimeRef st;
     sourcesRef := sourcesRef st;
     audioContexts := audioContexts st;
     sessions := sessions st;
     micStreams := l;
     sent := sent st;
     console := console st |}.

Definition send (sid : nat) (payload : jsstring) (st : State) : State :=
  {| isLiveActive := isLiveActive st;
     liveSessionRef := liveSessionRef st;
     audioContextRef := audioContextRef st;
     nextStartTimeRef := nextStartTimeRef st;
     sourcesRef := sourcesRef st;
     audioContexts := audioContexts st;
     sessions := sessions st;
     micStreams := micStreams st;
     sent := sent st ++ [(sid, payload)];
     console := console st |}.

(** [new AudioContext({ sampleRate })]: the new context is the last one. *)
Definition new_AudioContext (rate : positive) (st : State) : State :=
  set_audioContexts (audioContexts st ++ [(rate, false)]) st.

Definition close_AudioContext (ctx : nat) (st : State) : State :=
  set_audioContexts (alter (fun c => (c.1, true)) ctx (audioContexts st)) st.

Definition stop_tracks (stream : nat) (st : State) : State :=
  set_micStreams (<[stream := false]> (micStreams st)) st.

(** ** The live link: [startLiveComm], its callbacks, [stopLiveComm]

    [isLiveActive] is React state; a handler reads the value of the
    render it was created in, and the button always carries the handlers
    of the latest render, so a handler sees the current value. *)

(** [startLiveComm] up to its first [await]: the guard, the output
    context, and the call of [ai.live.connect].  The result is the state
    and the session the call is now waiting for, or [None] when the guard
    returned and nothing is left to run. *)
Definition startLiveComm (st : State) : State * option nat :=
  if isLiveActive st then (st, None)
  else
    let outCtx := length (audioContexts st) in
    let sid := length (sessions st) in
    let st := new_AudioContext 24000 st in
    let st := set_audioContextRef outCtx st in
    (set_sessions (sessions st ++ [Opening]) st, Some sid).

(** The rest of [startLiveComm], once [connect] has given the session
    [sid] and the platform has granted the microphone stream: the input
    context, the capture graph, and [liveSessionRef]. *)
Definition startLiveComm_resume (st : State) (sid : nat) : State :=
  let stream := length (micStreams st) in
  let st := set_micStreams (micStreams st ++ [true]) st in
  let inCtx := length (audioContexts st) in
  let st := new_AudioContext 16000 st in
  set_liveSessionRef
    {| lh_session := sid; lh_stream := stream; lh_inCtx := inCtx |} st.

Definition onopen (st : State) : State :=
  log (console_debug "Live link established.") (setIsLiveActive true st).

(** The chunk carried by a payload: [decodeAudioData(decode(audioBase64),
    ctx, 24000, 1)]. *)
Definition decode_chunk (audioBase64 : jsstring) : Result AudioBuffer :=
  bytes ← decode audioBase64;
  decodeAudioData bytes 24000 1.

(** [onmessage]; [now] is [ctx.currentTime] as read by the handler.  The
    handler is asynchronous: what it throws rejects its promise and is
    reported next to the state it leaves behind.  Its one [await] is on
    [decodeAudioData], which never suspends: the promise is settled when
    it is awaited, the rest of the handler runs before the next event is
    dispatched, and the handler is one step of the model. *)
Definition onmessage (st : State) (msg : LiveServerMessage) (now : Q)
    : State * Result unit :=
  match audio_payload msg with
  | Throw e => (st, Throw e)
  | Ok a =>
      match truthy a, audioContextRef st with
      | Some audioBase64, Some ctx =>
          let st := set_nextStartTime (Qmax (nextStartTimeRef st) now) st in
          match decode_chunk audioBase64 with
          | Throw e => (st, Throw e)
          | Ok buffer =>
              let source :=
                {| src_buffer := buffer; src_ctx := ctx;
                   src_start := nextStartTimeRef st;
                   src_stopped := false |} in
              let st :=
                set_nextStartTime (nextStartTimeRef st + duration buffer) st in
              (add_source source st, Ok ())
          end
      | _, _ => (st, Ok ())
      end
  end.

Definition onclose (st : State) : State := setIsLiveActive false st.

Definition onerror (st : State) (e : String.string) : State :=
  log (console_error e) st.

(** [processor.onaudioprocess] of the capture graph of session [sid]. *)
Definition onaudioprocess (st : State) (sid : nat) (input : list sample)
    : State :=
  match outbound_payload input with
  | Ok payload => send sid payload st
  | Throw _ => st
  end.

Definition stopLiveComm (st : State) : State :=
  let st :=
    match liveSessionRef st with
    | Some h => close_AudioContext (lh_inCtx h) (stop_tracks (lh_stream h) st)
    | None => st
    end in
  setIsLiveActive false st.

(** ** Events and runs *)

Inductive Event :=
| UserStart
| MicGranted (sid : nat)
| SessionOpen (sid : nat)
| SessionMessage (msg : LiveServerMessage) (now : Q)
| SessionClose (sid : nat)
| SessionError (e : String.string)
| AudioProcess (sid : nat) (input : list sample)
| UserStop.

(** The remote service records that a session opened or closed before
    the callback runs. *)
Definition mark_session (sid : nat) (s : SessionStatus) (st : State) : State :=
  set_sessions (<[sid := s]> (sessions st)) st.

Definition step (st : State) (ev : Event) : State :=
  match ev with
  | UserStart => (startLiveComm st).1
  | MicGranted sid => startLiveComm_resume st sid
  | SessionOpen sid => onopen (mark_session sid Open st)
  | SessionMessage msg now => (onmessage st msg now).1
  | SessionClose sid => onclose (mark_session sid Closed st)
  | SessionError e => onerror st e
  | AudioProcess sid input => onaudioprocess st sid input
  | UserStop => stopLiveComm st
  end.

Definition run (st : State) (evs : list Event) : State := foldl step st evs.

(** The scheduler alone: a sequence of inbound messages, each with the
    output clock time at its call. *)
Definition schedule (st : State) (chunks : list (LiveServerMessage * Q))
    : State :=
  foldl (fun st c => (onmessage st c.1 c.2).1) st chunks.

(** Lifecycle phases as far as the state shows them. *)
Definition Active (st : State) : Prop := isLiveActive st = true.
Definition Connecting (st : State) : Prop :=
  isLiveActive st = false /\ Opening ∈ sessions st.

(** A message carrying the base64 text [s] as its first inline part. *)
Definition audio_message (s : jsstring) : LiveServerMessage :=
  {| serverContent := Some {| modelTurn := Some {| parts := Some
       [ {| inlineData := Some {| data := Some s |} |} ] |} |} |}.

(** The buffer a message makes the scheduler play, if any. *)
Definition chunk_of (msg : LiveServerMessage) : option AudioBuffer :=
  match audio_payload msg with
  | Ok a =>
      match truthy a with
      | Some audioBase64 =>
          match decode_chunk audioBase64 with
          | Ok buffer => Some buffer
          | Throw _ => None
          end
      | None => None
      end
  | Throw _ => None
  end.

(** Encoding a captured block and decoding the payload as an inbound
    chunk of one channel. *)
Definition roundtrip (input : list sample) (rate : positive)
    : Result AudioBuffer :=
  payload ← outbound_payload input;
  bytes ← decode payload;
  decodeAudioData bytes rate 1.

(** No source of the list starts before an earlier one has ended. *)
Definition no_overlap (l : list Source) : Prop :=
  forall i j s1 s2, (i < j)%nat -> l !! i = Some s1 -> l !! j = Some s2 ->
    (src_end s1 <= src_start s2)%Q.

(** What one call of [onmessage] can do to the state: nothing, move the
    cursor up to the output clock (the payload did not decode), or play a
    buffer. *)
Inductive onmessage_effect (st : State) (msg : LiveServerMessage) (now : Q)
    : State -> Prop :=
| effect_none :
    onmessage_effect st msg now st
| effect_clamp :
    chunk_of msg = None ->
    onmessage_effect st msg now
      (set_nextStartTime (Qmax (nextStartTimeRef st) now) st)
| effect_play buffer ctx :
    chunk_of msg = Some buffer ->
    audioContextRef st = Some ctx ->
    let start := Qmax (nextStartTimeRef st) now in
    onmessage_effect st msg now
      (add_source {| src_buffer := buffer; src_ctx := ctx;
                     src_start := start; src_stopped := false |}
                  (set_nextStartTime (start + duration buffer)%Q st)).

(** The scheduler's invariant: sources do not overlap, and all end at or
    before the cursor. *)
Definition scheduler_inv (st : State) : Prop :=
  no_overlap (sourcesRef st) /\
  Forall (fun s => src_end s <= nextStartTimeRef st)%Q (sourcesRef st).

(** ** The chat and intel panels

    The part of the component state the live link does not use, and the
    handlers [handleChat] and [handleResearch] with the module functions
    they call.  Both handlers are asynchronous and close over the state
    of the render they were created in: what they captured is returned
    by the first half of the handler and handed to the half that runs
    when the request has settled. *)

Inductive Role := user | model.

Record ChatMessage := {
  role : Role;
  text : String.string;
  isThinking : option bool
}.

Inductive CaptureType := image | voice | intel.

Record WebSource := { uri : String.string; title : String.string }.
Record GroundingChunk := { web : option WebSource }.

Record CaptureResult := {
  cap_id : String.string;
  type : CaptureType;
  content : String.string;
  analysis : option String.string;
  timestamp : N;
  sources : option (list GroundingChunk)
}.

(** A [generateContent] request: the model, the prompt, an inline audio
    part if any, the thinking budget if any, and whether search
    grounding is asked for. *)
Record Request := {
  req_model : String.string;
  req_text : String.string;
  req_audio : option (jsstring * String.string);
  req_thinkingBudget : option N;
  req_googleSearch : bool
}.

(** As much of a response as the dock reads. *)
Record GroundingMetadata := { groundingChunks : option (list GroundingChunk) }.
Record Candidate := { groundingMetadata : option GroundingMetadata }.
Record Response := {
  resp_text : option String.string;
  candidates : option (list Candidate)
}.

(** [runGhostLite]: the audio part is sent when [audioBase64] is given
    and not empty. *)
Definition runGhostLite (prompt : String.string)
    (audioBase64 : option jsstring) : Request :=
  {| req_model := "gemini-2.5-flash-lite-latest";
     req_text := prompt;
     req_audio :=
       match truthy audioBase64 with
       | Some a => Some (a, "audio/webm"%string)
       | None => None
       end;
     req_thinkingBudget := None;
     req_googleSearch := false |}.

Definition runDeepIntel (message : String.string) : Request :=
  {| req_model := "gemini-3-pro-preview";
     req_text := message;
     req_audio := None;
     req_thinkingBudget := Some 32768%N;
     req_googleSearch := false |}.

Definition runSearchIntel (query : String.string) : Request :=
  {| req_model := "gemini-3-flash-preview";
     req_text := query;
     req_audio := None;
     req_thinkingBudget := None;
     req_googleSearch := true |}.

(** What [runSearchIntel] returns for a response:
    [response.candidates?.[0]?.groundingMetadata?.groundingChunks]. *)
Definition search_sources (r : Response) : option (list GroundingChunk) :=
  match candidates r with
  | None => None
  | Some cs =>
      match cs !! 0%nat with
      | None => None
      | Some c =>
          match groundingMetadata c with
          | None => None
          | Some m => groundingChunks m
          end
      end
  end.

Record Panel := {
  chatHistory : list ChatMessage;
  captures : list CaptureResult;
  isLoading : bool;
  requests : list Request;
  errors : list String.string
}.

Definition empty_panel : Panel :=
  {| chatHistory := []; captures := []; isLoading := false;
     requests := []; errors := [] |}.

Definition setChatHistory (h : list ChatMessage) (p : Panel) : Panel :=
  {| chatHistory := h; captures := captures p; isLoading := isLoading p;
     requests := requests p; errors := errors p |}.

Definition setCaptures (c : list CaptureResult) (p : Panel) : Panel :=
  {| chatHistory := chatHistory p; captures := c; isLoading := isLoading p;
     requests := requests p; errors := errors p |}.

Definition setIsLoading (b : bool) (p : Panel) : Panel :=
  {| chatHistory := chatHistory p; captures := captures p; isLoading := b;
     requests := requests p; errors := errors p |}.

Definition request (r : Request) (p : Panel) : Panel :=
  {| chatHistory := chatHistory p; captures := captures p;
     isLoading := isLoading p; requests := requests p ++ [r];
     errors := errors p |}.

Definition console_error_panel (e : String.string) (p : Panel) : Panel :=
  {| chatHistory := chatHistory p; captures := captures p;
     isLoading := isLoading p; requests := requests p;
     errors := errors p ++ [e] |}.

Definition user_message (msg : String.string) : ChatMessage :=
  {| role := user; text := msg; isThinking := None |}.

(** [{ role: 'model', text: reply || '' }] *)
Definition model_message (reply : option String.string) : ChatMessage :=
  {| role := model;
     text := match reply with Some r => r | None => ""%string end;
     isThinking := None |}.

(** [handleChat] up to its [await]: the result is the state and the
    [newHistory] the rest of the handler holds on to. *)
Definition handleChat (p : Panel) (msg : String.string)
    : Panel * list ChatMessage :=
  let newHistory := chatHistory p ++ [user_message msg] in
  let p := setChatHistory newHistory p in
  let p := setIsLoading true p in
  (request (runDeepIntel msg) p, newHistory).

(** The rest of [handleChat] when the request is answered. *)
Definition handleChat_resolved (p : Panel) (newHistory : list ChatMessage)
    (response : Response) : Panel :=
  let reply := resp_text response in
  let p := setChatHistory (newHistory ++ [model_message reply]) p in
  setIsLoading false p.

(** The rest of [handleChat] when the request fails. *)
Definition handleChat_rejected (p : Panel) (e : String.string) : Panel :=
  setIsLoading false (console_error_panel e p).

(** [handleResearch] up to its [await]; the rest of the handler holds on
    to the [captures] of its render. *)
Definition handleResearch (p : Panel) (query : String.string)
    : Panel * list CaptureResult :=
  let p' := setIsLoading true p in
  (request (runSearchIntel query) p', captures p).

(** Decimal digits of a number ([Date.now().toString()]). *)
Definition decimal (n : N) : String.string :=
  NilZero.string_of_uint (N.to_uint n).

(** The rest of [handleResearch] when the request is answered; [now1]
    and [now2] are the two readings of [Date.now()]. *)
Definition handleResearch_resolved (p : Panel)
    (captured : list CaptureResult) (query : String.string)
    (response : Response) (now1 now2 : N) : Panel :=
  let newCap :=
    {| cap_id := decimal now1; type := intel; content := query;
       analysis := resp_text response;
       sources := search_sources response;
       timestamp := now2 |} in
  setIsLoading false (setCaptures (newCap :: captured) p).

Definition handleResearch_rejected (p : Panel) (e : String.string) : Panel :=
  setIsLoading false (console_error_panel e p).

(** What the intel panel lists:
    [captures.filter(c => c.type === 'intel')]. *)
Definition is_intel (c : CaptureResult) : bool :=
  match type c with intel => true | _ => false end.

Definition intel_list (p : Panel) : list CaptureResult :=
  List.filter is_intel (captures p).

(** One chat exchange that settles before the next message is sent: the
    message, and the response or the error of its request. *)
Definition exchange (p : Panel) (e : String.string * (Response + String.string))
    : Panel :=
  let r := handleChat p e.1 in
  match e.2 with
  | inl response => handleChat_resolved r.1 r.2 response
  | inr err => handleChat_rejected r.1 err
  end.

(** What an exchange leaves in the history. *)
Definition exchange_messages (e : String.string * (Response + String.string))
    : list ChatMessage :=
  user_message e.1 ::
  match e.2 with
  | inl response => [model_message (resp_text response)]
  | inr _ => []
  end.

(** One search that settles before the next is started: the query, and
    the response with the two clock readings, or the error. *)
Definition research (p : Panel)
    (e : String.string * (Response * N * N + String.string)) : Panel :=
  let r := handleResearch p e.1 in
  match e.2 with
  | inl (response, now1, now2) =>
      handleResearch_resolved r.1 r.2 e.1 response now1 now2
  | inr err => handleResearch_rejected r.1 err
  end.

(** The capture a search leaves, if it was answered. *)
Definition research_capture
    (e : String.string * (Response * N * N + String.string))
    : list CaptureResult :=
  match e.2 with
  | inl (response, now1, now2) =>
      [{| cap_id := decimal now1; type := intel; content := e.1;
          analysis := resp_text response;
          sources := search_sources response;
          timestamp := now2 |}]
  | inr _ => []
  end.

(** The error an exchange or a search logs, if it failed. *)
Definition failure {A B} (e : A * (B + String.string)) : list String.string :=
  match e.2 with
  | inl _ => []
  | inr err => [err]
  end.

(** The button of the live panel:
    [onClick={isLiveActive ? stopLiveComm : startLiveComm}]. *)
Definition live_button (st : State) : State :=
  if isLiveActive st then stopLiveComm st else (startLiveComm st).1.

(** ** Invariants of the platform resources

    Output contexts run at 24 kHz and input contexts at 16 kHz; the
    references the component holds point to contexts and streams that
    exist. *)
Definition resources_inv (st : State) : Prop :=
  (forall i b, audioContexts st !! i = Some (24000%positive, b) -> b = false) /\
  (forall c, audioContextRef st = Some c ->
     audioContexts st !! c = Some (24000%positive, false)) /\
  (forall h, liveSessionRef st = Some h ->
     (exists b, audioContexts st !! lh_inCtx h = Some (16000%positive, b)) /\
     is_Some (micStreams st !! lh_stream h)) /\
  Forall (fun s => audioContexts st !! src_ctx s = Some (24000%positive, false))
         (sourcesRef st).

(** Every scheduled buffer is a chunk as [onmessage] decodes it. *)
Definition chunk_shaped (b : AudioBuffer) : Prop :=
  numberOfChannels b = 1%nat /\ sampleRate b = 24000%positive /\
  (1 <= buf_length b)%nat /\
  exists cd, channels b = [cd] /\ length cd = buf_length b /\
    Forall (fun s => exists q, s = Num q /\ (-1 <= q)%Q /\ (q < 1)%Q) cd.

(** The realtime input an event sends, if any. *)
Definition frame_of (ev : Event) : list (nat * jsstring) :=
  match ev with
  | AudioProcess sid input =>
      match outbound_payload input with
      | Ok payload => [(sid, payload)]
      | Throw _ => []
      end
  | _ => []
  end.

(** ** The scheduler in double precision

    The cursor ([nextStartTimeRef.current]), the output clock
    ([ctx.currentTime]) and [buffer.duration] are IEEE 754 doubles, and
    [Math.max] and [+=] work on doubles.  Here [onmessage] is embedded
    with exactly these numbers, for the properties that depend on the
    sums the code computes; it reads and writes the output context
    reference, the cursor and the Active Source Set, and so the state is
    these three. *)
Module Double.

Definition number_of_Z (z : Z) : PrimFloat.float :=
  PrimFloat.of_uint63 (Uint63.of_Z z).

Definition is_negative_zero (a : PrimFloat.float) : bool :=
  match PrimFloat.classify a with
  | FloatClass.NZero => true
  | _ => false
  end.

(** [Math.max(a, b)]: [NaN] when an argument is [NaN], the larger number
    otherwise, and [+0] rather than [-0]. *)
Definition Math_max (a b : PrimFloat.float) : PrimFloat.float :=
  if PrimFloat.is_nan a || PrimFloat.is_nan b then PrimFloat.nan
  else if PrimFloat.ltb a b then b
  else if PrimFloat.ltb b a then a
  else if is_negative_zero a then b
  else a.

(** [buffer.duration]: the length divided by the sample rate, both
    integers far below 2^53, which doubles hold exactly; the quotient is
    rounded to the nearest double. *)
Definition duration (b : AudioBuffer) : PrimFloat.float :=
  PrimFloat.div (number_of_Z (Z.of_nat (buf_length b)))
                (number_of_Z (Z.pos (sampleRate b))).

Record Source := {
  src_buffer : AudioBuffer;
  src_ctx : nat;
  src_start : PrimFloat.float;
  src_stopped : bool
}.

Record State := {
  audioContextRef : option nat;
  nextStartTimeRef : PrimFloat.float;
  sourcesRef : list Source
}.

(** The refs as [useRef] makes them, with an output context set. *)
Definition started (ctx : nat) : State :=
  {| audioContextRef := Some ctx; nextStartTimeRef := PrimFloat.zero;
     sourcesRef := [] |}.

Definition onmessage (st : State) (msg : LiveServerMessage)
    (now : PrimFloat.float) : State * Result unit :=
  match audio_payload msg with
  | Throw e => (st, Throw e)
  | Ok a =>
      match truthy a, audioContextRef st with
      | Some audioBase64, Some ctx =>
          let cursor := Math_max (nextStartTimeRef st) now in
          match decode_chunk audioBase64 with
          | Throw e =>
              ({| audioContextRef := audioContextRef st;
                  nextStartTimeRef := cursor;
                  sourcesRef := sourcesRef st |}, Throw e)
          | Ok buffer =>
              let source :=
                {| src_buffer := buffer; src_ctx := ctx;
                   src_start := cursor; src_stopped := false |} in
              ({| audioContextRef := audioContextRef st;
                  nextStartTimeRef := PrimFloat.add cursor (duration buffer);
                  sourcesRef := sourcesRef st ++ [source] |}, Ok ())
          end
      | _, _ => (st, Ok ())
      end
  end.

(** A sequence of inbound messages, each with the output clock time at
    its call. *)
Definition schedule (st : State)
    (chunks : list (LiveServerMessage * PrimFloat.float)) : State :=
  foldl (fun st c => (onmessage st c.1 c.2).1) st chunks.

(** The sources a run added to the Active Source Set. *)
Definition scheduled (st st' : State) : list Source :=
  drop (length (sourcesRef st)) (sourcesRef st').

(** Every call finds the output clock at or before the cursor. *)
Fixpoint on_time (st : State)
    (chunks : list (LiveServerMessage * PrimFloat.float)) : Prop :=
  match chunks with
  | [] => True
  | c :: rest =>
      PrimFloat.leb c.2 (nextStartTimeRef st) = true /\
      on_time (onmessage st c.1 c.2).1 rest
  end.

(** The same for every call after the first. *)
Definition on_time_after_first (st : State)
    (chunks : list (LiveServerMessage * PrimFloat.float)) : Prop :=
  match chunks with
  | [] => True
  | c :: rest => on_time (onmessage st c.1 c.2).1 rest
  end.

(** Sources that play the buffers [bufs] back to back from [cursor] on:
    each starts at the number the cursor had reached, which is the start
    of the one before plus its duration. *)
Fixpoint linked (cursor : PrimFloat.float) (new : list Source)
    (bufs : list AudioBuffer) : Prop :=
  match new, bufs with
  | [], [] => True
  | s :: new, b :: bufs =>
      src_buffer s = b /\
      PrimFloat.eqb (src_start s) cursor = true /\
      linked (PrimFloat.add (src_start s) (duration b)) new bufs
  | _, _ => False
  end.

End Double.

(** A message carrying [frames] frames of silence. *)
Definition silence (frames : nat) : LiveServerMessage :=
  audio_message
    (match encode (repeat x00 (2 * frames)) with
     | Ok s => s
     | Throw _ => []
     end).

(** ** Proof automation *)

(** [lia] is to treat division and remainder by their defining
    equations. *)
Ltac Zify.zify_post_hook ::= Z.to_euclidean_division_equations.

(** Case analysis on the tests of a conditional. *)
Ltac case_conds :=
  repeat match goal with
  | |- context [if ?c then _ else _] => destruct c eqn:?
  end;
  rewrite ?andb_true_iff, ?andb_false_iff, ?N.ltb_lt, ?N.ltb_ge, ?N.leb_le,
    ?N.leb_gt, ?N.eqb_eq, ?N.eqb_neq, ?Z.ltb_lt, ?Z.ltb_ge, ?Z.leb_le,
    ?Z.leb_gt in *.

(** * Properties *)

(** ** Worked values *)

Example encode_Man :
  encode [x4d; x61; x6e] = Ok (of_ascii_string "TWFu").
Proof. reflexivity. Qed.

Example encode_Ma :
  encode [x4d; x61] = Ok (of_ascii_string "TWE=").
Proof. reflexivity. Qed.

Example decode_M :
  decode (of_ascii_string "TQ==") = Ok [x4d].
Proof. reflexivity. Qed.

Example decode_skips_whitespace :
  decode (of_ascii_string "TW Fu") = Ok [x4d; x61; x6e].
Proof. reflexivity. Qed.

Example decode_rejects_stray_padding :
  decode (of_ascii_string "TWFu=") = Throw InvalidCharacterError.
Proof. reflexivity. Qed.

Example quantize_values :
  quantize [Num 0; Num (1 # 2); Num (-1); Num 1; Num (-(3 # 65536)); NaN]
  = [0; 16384; -32768; -32768; -1; 0]%Z.
Proof. reflexivity. Qed.

Example int16_buffer_le :
  int16_buffer [258; -2]%Z = [x02; x01; xfe; xff].
Proof. reflexivity. Qed.

Example decodeAudioData_mono :
  channels <$> (match decodeAudioData [x00; x40; x00; x80] 24000 1 with
                | Ok b => Some b | Throw _ => None end)
  = Some [[Num (16384 # 32768); Num (-32768 # 32768)]].
Proof. reflexivity. Qed.

Example decodeAudioData_odd :
  decodeAudioData [x00; x40; x00] 24000 1 = Throw RangeError.
Proof. reflexivity. Qed.

Example decodeAudioData_stereo_partial :
  channels <$> (match decodeAudioData [x00; x40; x00; x80; x00; x20] 24000 2 with
                | Ok b => Some b | Throw _ => None end)
  = Some [[Num (16384 # 32768)]; [Num (-32768 # 32768)]].
Proof. reflexivity. Qed.

(** Three chunks of 2, 1 and 2 frames; the output clock reads 0 at the
    first two calls and has passed the cursor at the third. *)
Example schedule_three_chunks :
  let st := (startLiveComm initial).1 in
  let two := audio_message (of_ascii_string "AEAAgA==") in
  let one := audio_message (of_ascii_string "AEA=") in
  map (fun s => (src_start s, duration (src_buffer s)))
      (sourcesRef (schedule st [(two, 0%Q); (one, 0%Q); (two, 1 # 1000)]))
  = [(0%Q, 2 # 24000); (2 # 24000, 1 # 24000); (1 # 1000, 2 # 24000)].
Proof. vm_compute. reflexivity. Qed.

(** A payload of three bytes: the cursor has been moved up to the output
    clock when the decoder throws, and nothing is scheduled. *)
Example onmessage_odd_payload :
  let st := (startLiveComm initial).1 in
  let r := onmessage st (audio_message (of_ascii_string "AEAA")) 3 in
  r.2 = Throw RangeError /\
  nextStartTimeRef r.1 = 3%Q /\ sourcesRef r.1 = [].
Proof. vm_compute. auto. Qed.

(** A second session after a stop: its output context is new, the cursor
    is the one the first session left. *)
Example restart_keeps_cursor :
  let two := audio_message (of_ascii_string "AEAAgA==") in
  let one := audio_message (of_ascii_string "AEA=") in
  let st := run initial
    [UserStart; SessionOpen 0; MicGranted 0; SessionMessage two 0; UserStop;
     UserStart; SessionOpen 1; MicGranted 1; SessionMessage one 0] in
  map (fun s => (src_ctx s, src_start s)) (sourcesRef st)
  = [(0%nat, 0%Q); (2%nat, 2 # 24000)].
Proof. vm_compute. reflexivity. Qed.

Lemma list_ind2 {A} (P : list A -> Prop) :
  P [] -> (forall a, P [a]) -> (forall a b r, P r -> P (a :: b :: r)) ->
  forall l, P l.
Proof.
  intros H0 H1 H2.
  fix IH 1.
  intros [|a [|b r]]; [apply H0 | apply H1 | apply H2, IH].
Qed.

(** ** Base64 *)

Section Base64Facts.
Local Open Scope N_scope.

Lemma list_ind3 {A} (P : list A -> Prop) :
  P [] -> (forall a, P [a]) -> (forall a b, P [a; b]) ->
  (forall a b c r, P r -> P (a :: b :: c :: r)) ->
  forall l, P l.
Proof.
  intros H0 H1 H2 H3.
  fix IH 1.
  intros [|a [|b [|c r]]]; [apply H0 | apply H1 | apply H2 | apply H3, IH].
Qed.


Lemma b64_char_cases i :
  let c := b64_char i in
  65 <= c <= 90 \/ 97 <= c <= 122 \/ 48 <= c <= 57 \/ c = 43 \/ c = 47.
Proof. unfold b64_char. case_conds; lia. Qed.

Lemma b64_index_char i : i < 64 -> b64_index (b64_char i) = Some i.
Proof.
  intros Hi. unfold b64_char. case_conds; unfold b64_index; case_conds;
    try (f_equal; lia); lia.
Qed.

Lemma b64_char_not_ws i : is_ascii_whitespace (b64_char i) = false.
Proof.
  pose proof (b64_char_cases i) as H. simpl in H.
  unfold is_ascii_whitespace.
  rewrite !orb_false_iff, !N.eqb_neq. lia.
Qed.

Lemma b64_char_not_pad i : (b64_char i =? pad_char) = false.
Proof.
  pose proof (b64_char_cases i) as H. simpl in H.
  apply N.eqb_neq. unfold pad_char. lia.
Qed.

Lemma sextets_bounded l :
  Forall (fun b => b < 256) l -> Forall (fun s => s < 64) (sextets l).
Proof.
  induction l as [|a|a b|a b c r IH] using list_ind3; intros H; simpl;
    rewrite ?Forall_cons in H; repeat apply Forall_cons_2;
    try apply Forall_nil_2; try lia.
  apply IH. tauto.
Qed.

Lemma unsextets_sextets l :
  Forall (fun b => b < 256) l -> unsextets (sextets l) = l.
Proof.
  induction l as [|a|a b|a b c r IH] using list_ind3; intros H; simpl;
    rewrite ?Forall_cons in H; try rewrite IH by tauto;
    repeat f_equal; lia.
Qed.

Lemma mapM_index_char sx :
  Forall (fun s => s < 64) sx -> mapM b64_index (map b64_char sx) = Some sx.
Proof.
  induction 1 as [|s sx Hs _ IH]; simpl; [reflexivity|].
  rewrite b64_index_char by assumption. simpl. rewrite IH. reflexivity.
Qed.

Lemma filter_ws_encode l :
  let keep := fun c => negb (is_ascii_whitespace c) in
  List.filter keep (b64_encode l) = b64_encode l.
Proof.
  intros keep. apply forallb_filter_id. unfold b64_encode.
  rewrite forallb_app. apply andb_true_iff. split.
  - apply forallb_forall. intros c Hc. apply in_map_iff in Hc as (s & <- & _).
    unfold keep. rewrite b64_char_not_ws. reflexivity.
  - unfold padding. destruct (length l mod 3)%nat as [|[|[|?]]]; reflexivity.
Qed.

Lemma length_sextets l :
  exists k : nat,
    (length l = 3 * k /\ length (sextets l) = 4 * k)%nat \/
    (length l = 3 * k + 1 /\ length (sextets l) = 4 * k + 2)%nat \/
    (length l = 3 * k + 2 /\ length (sextets l) = 4 * k + 3)%nat.
Proof.
  induction l as [|a|a b|a b c r IH] using list_ind3; simpl.
  - exists 0%nat. lia.
  - exists 0%nat. lia.
  - exists 0%nat. lia.
  - destruct IH as [k IH]. exists (S k). lia.
Qed.

Lemma strip_padding_encode l :
  strip_padding (b64_encode l) = map b64_char (sextets l).
Proof.
  unfold b64_encode, strip_padding.
  destruct (length_sextets l) as (k & [[Hl Hs]|[[Hl Hs]|[Hl Hs]]]).
  - replace (padding (length l)) with (@nil N).
    2:{ unfold padding. replace (length l mod 3)%nat with 0%nat by lia.
        reflexivity. }
    rewrite app_nil_r.
    destruct (sextets l) as [|s sx _] using rev_ind; [reflexivity|].
    rewrite map_app, rev_app_distr. simpl.
    rewrite b64_char_not_pad. destruct (rev (map b64_char sx)); reflexivity.
  - replace (padding (length l)) with [pad_char; pad_char].
    2:{ unfold padding. replace (length l mod 3)%nat with 1%nat by lia.
        reflexivity. }
    rewrite rev_app_distr. simpl. apply rev_involutive.
  - replace (padding (length l)) with [pad_char].
    2:{ unfold padding. replace (length l mod 3)%nat with 2%nat by lia.
        reflexivity. }
    rewrite rev_app_distr. simpl.
    destruct (sextets l) as [|s sx _] using rev_ind; [simpl in Hs; lia|].
    rewrite map_app, rev_app_distr. simpl.
    rewrite b64_char_not_pad. simpl. rewrite rev_involutive. reflexivity.
Qed.

Lemma atob_encode l :
  Forall (fun b => b < 256) l -> atob (b64_encode l) = Ok l.
Proof.
  intros Hl. unfold atob. rewrite filter_ws_encode.
  assert (Hlen : (length (b64_encode l) mod 4 =? 0)%nat = true).
  { apply Nat.eqb_eq. unfold b64_encode, padding.
    rewrite length_app, length_map.
    destruct (length_sextets l) as (k & [[H1 H2]|[[H1 H2]|[H1 H2]]]).
    - replace (length l mod 3)%nat with 0%nat by lia. cbn [length]. lia.
    - replace (length l mod 3)%nat with 1%nat by lia. cbn [length]. lia.
    - replace (length l mod 3)%nat with 2%nat by lia. cbn [length]. lia. }
  rewrite Hlen, strip_padding_encode, length_map.
  assert (Hne : (length (sextets l) mod 4 =? 1)%nat = false).
  { apply Nat.eqb_neq.
    destruct (length_sextets l) as (k & [[H1 H2]|[[H1 H2]|[H1 H2]]]); lia. }
  rewrite Hne, mapM_index_char by (apply sextets_bounded, Hl).
  rewrite unsextets_sextets by assumption. reflexivity.
Qed.

Lemma bytes_bounded (b : list byte) : Forall (fun n => n < 256) (map Byte.to_N b).
Proof.
  apply Forall_map, Forall_forall. intros x _. simpl.
  pose proof (Byte.to_N_bounded x). lia.
Qed.

Lemma to_uint8_to_N b : to_uint8 (Byte.to_N b) = b.
Proof.
  unfold to_uint8. pose proof (Byte.to_N_bounded b).
  rewrite N.mod_small by lia. rewrite Byte.of_to_N. reflexivity.
Qed.

Lemma to_N_to_uint8 n : Byte.to_N (to_uint8 n) = n mod 256.
Proof.
  unfold to_uint8. destruct (Byte.of_N (n mod 256)) as [b|] eqn:E.
  - apply Byte.to_of_N in E. exact E.
  - apply Byte.of_N_None_iff in E. lia.
Qed.

Lemma encode_Ok (b : list byte) :
  encode b = Ok (b64_encode (map Byte.to_N b)).
Proof.
  unfold encode, btoa.
  replace (forallb _ _) with true; [reflexivity|].
  symmetry. apply forallb_forall. intros x Hx.
  apply in_map_iff in Hx as (y & <- & _).
  pose proof (Byte.to_N_bounded y). apply N.leb_le. lia.
Qed.

Lemma decode_b64_encode (b : list byte) :
  decode (b64_encode (map Byte.to_N b)) = Ok b.
Proof.
  unfold decode. rewrite atob_encode by apply bytes_bounded. simpl.
  f_equal. rewrite map_map. rewrite <- (map_id b) at 2.
  apply map_ext. intros. apply to_uint8_to_N.
Qed.

End Base64Facts.

(** C8. Decoding what [encode] produced gives back the byte array: the
    same length, the same byte at every position. *)
Theorem decode_encode (b : list byte) :
  (s ← encode b; decode s) = Ok b.
Proof. rewrite encode_Ok. simpl. apply decode_b64_encode. Qed.

(** ** The inbound decoder *)

Lemma wrap16_range z : (-32768 <= wrap16 z <= 32767)%Z.
Proof. unfold wrap16. case_conds; lia. Qed.

Lemma wrap16_small z : (-32768 <= z <= 32767)%Z -> wrap16 z = z.
Proof. intros H. unfold wrap16. case_conds; lia. Qed.

Lemma int16_view_range data :
  Forall (fun v => -32768 <= v <= 32767)%Z (int16_view data).
Proof.
  induction data as [|lo|lo hi r IH] using list_ind2; simpl;
    repeat apply Forall_cons_2; try apply Forall_nil_2;
    try apply wrap16_range.
  exact IH.
Qed.

Lemma length_int16_view data :
  length (int16_view data) = (length data / 2)%nat.
Proof.
  induction data as [|lo|lo hi r IH] using list_ind2; simpl length.
  - reflexivity.
  - reflexivity.
  - rewrite IH. lia.
Qed.

Lemma foldl_insert_lookup {A} (g : nat -> A) (cd : list A) a k j :
  foldl (fun cd i => <[i := g i]> cd) cd (seq a k) !! j
  = if decide (a <= j < a + k /\ j < length cd)%nat then Some (g j)
    else cd !! j.
Proof.
  revert a cd. induction k as [|k IH]; intros a cd; simpl.
  - case_decide; [lia|reflexivity].
  - rewrite IH, length_insert, list_lookup_insert.
    repeat case_decide; try reflexivity; try lia.
    destruct H0 as [-> _]. reflexivity.
Qed.

Lemma length_foldl_insert {A} (g : nat -> A) (cd : list A) l :
  length (foldl (fun cd i => <[i := g i]> cd) cd l) = length cd.
Proof.
  revert cd. induction l as [|i l IH]; intros cd; simpl; [reflexivity|].
  rewrite IH. apply length_insert.
Qed.

Lemma foldl_alter_lookup {A} (f : nat -> A -> A) (l : list A) a k j :
  foldl (fun l c => alter (f c) c l) l (seq a k) !! j
  = if decide (a <= j < a + k)%nat then f j <$> l !! j else l !! j.
Proof.
  revert a l. induction k as [|k IH]; intros a l; simpl.
  - case_decide; [lia|reflexivity].
  - rewrite IH, list_lookup_alter.
    repeat case_decide; subst; try reflexivity; lia.
Qed.

Lemma to_unsigned_long_js_div n d :
  to_unsigned_long (js_div n d) = (n / d)%nat.
Proof.
  destruct d as [|d]; [reflexivity|].
  unfold js_div, to_unsigned_long, Qtrunc. cbn [Qnum Qden].
  rewrite Z.quot_div_nonneg by lia.
  replace (Z.pos (Pos.of_nat (S d))) with (Z.of_nat (S d)) by lia.
  rewrite <- Nat2Z.inj_div. apply Nat2Z.id.
Qed.

Lemma loop_bound_js_div n d : (n / d <= loop_bound (js_div n d))%nat.
Proof.
  destruct d as [|d]; [simpl; lia|].
  rewrite <- to_unsigned_long_js_div.
  unfold js_div, to_unsigned_long, loop_bound.
  set (q := Z.of_nat n # Pos.of_nat (S d)).
  apply Z2Nat.inj_le.
  - unfold Qtrunc. apply Z.quot_pos; [|lia]. simpl. lia.
  - rewrite Zle_Qle. apply Qle_trans with q; [|apply Qle_ceiling].
    unfold Qle. simpl. lia.
  - unfold Qtrunc. rewrite Z.quot_div_nonneg by (simpl; lia).
    rewrite Zle_Qle.
    apply Qle_trans with q; [apply (Qfloor_le q)|apply Qle_ceiling].
Qed.

Lemma fill_channel_zeroed d nc fc ch frames :
  (frames <= loop_bound fc)%nat ->
  fill_channel d nc fc ch (replicate frames (Num 0))
  = map (fun i => pcm_sample d (i * nc + ch)) (seq 0 frames).
Proof.
  intros Hle. apply list_eq. intros i. unfold fill_channel.
  rewrite (foldl_insert_lookup (fun i => pcm_sample d (i * nc + ch))).
  rewrite length_replicate, list_lookup_fmap.
  case_decide as Hi.
  - rewrite lookup_seq_lt by lia. reflexivity.
  - rewrite lookup_seq_ge by lia. apply lookup_replicate_None. lia.
Qed.

Lemma fill_all_channels d nc fc frames :
  (frames <= loop_bound fc)%nat ->
  foldl (fun chans channel => alter (fill_channel d nc fc channel) channel chans)
        (replicate nc (replicate frames (Num 0))) (seq 0 nc)
  = planar d nc frames.
Proof.
  intros Hle. apply list_eq. intros ch.
  rewrite (foldl_alter_lookup (fill_channel d nc fc)).
  unfold planar. rewrite list_lookup_fmap.
  case_decide as Hch.
  - rewrite lookup_replicate_2, lookup_seq_lt by lia. simpl.
    rewrite fill_channel_zeroed by assumption. reflexivity.
  - rewrite lookup_seq_ge by lia. apply lookup_replicate_None. lia.
Qed.

(** [decodeAudioData] in closed form. *)
Lemma decodeAudioData_eq data rate nc :
  decodeAudioData data rate nc =
  let frames := (length data / 2 / nc)%nat in
  if (length data mod 2 =? 0)%nat then
    if (1 <=? nc)%nat && (nc <=? 32)%nat && (1 <=? frames)%nat
       && (8000 <=? rate)%positive && (rate <=? 96000)%positive
    then Ok {| numberOfChannels := nc; buf_length := frames;
               sampleRate := rate;
               channels := planar (int16_view data) nc frames |}
    else Throw NotSupportedError
  else Throw RangeError.
Proof.
  unfold decodeAudioData, new_Int16Array.
  destruct (length data mod 2 =? 0)%nat; [|reflexivity].
  cbn [mbind Result_bind rbind]. unfold createBuffer.
  rewrite to_unsigned_long_js_div, length_int16_view.
  cbv zeta.
  destruct (_ && _); [|reflexivity].
  cbn [mbind Result_bind rbind numberOfChannels buf_length sampleRate channels].
  rewrite fill_all_channels; [reflexivity|].
  rewrite <- length_int16_view. apply loop_bound_js_div.
Qed.

Lemma decodeAudioData_Ok_inv data rate nc buf :
  decodeAudioData data rate nc = Ok buf ->
  let frames := (length data / 2 / nc)%nat in
  (1 <= nc)%nat /\ (1 <= frames)%nat /\
  buf = {| numberOfChannels := nc; buf_length := frames; sampleRate := rate;
           channels := planar (int16_view data) nc frames |}.
Proof.
  rewrite decodeAudioData_eq. cbv zeta.
  destruct (length data mod 2 =? 0)%nat; [|discriminate].
  destruct (_ && _) eqn:E; [|discriminate].
  rewrite !andb_true_iff, !Nat.leb_le in E.
  intros [= <-]. intuition.
Qed.

Lemma planar_lookup d nc frames ch cd i s :
  planar d nc frames !! ch = Some cd -> cd !! i = Some s ->
  (ch < nc)%nat /\ (i < frames)%nat /\ s = pcm_sample d (i * nc + ch).
Proof.
  unfold planar. rewrite list_lookup_fmap.
  destruct (seq 0 nc !! ch) as [ch'|] eqn:Hch; [|discriminate].
  apply lookup_seq in Hch as [-> Hch]. intros [= <-].
  rewrite list_lookup_fmap.
  destruct (seq 0 frames !! i) as [i'|] eqn:Hi; [|discriminate].
  apply lookup_seq in Hi as [-> Hi]. intros [= <-]. auto.
Qed.

(** C9. Every sample of a decoded buffer is a 16-bit integer divided by
    32768, hence a number in the half-open interval from -1 to 1. *)
Theorem decoded_samples_in_range data rate nc buf ch cd i s :
  decodeAudioData data rate nc = Ok buf ->
  channels buf !! ch = Some cd ->
  cd !! i = Some s ->
  exists v : Z,
    (-32768 <= v <= 32767)%Z /\ s = Num (v # 32768) /\
    (-1 <= v # 32768)%Q /\ (v # 32768 < 1)%Q.
Proof.
  intros Hdec Hch Hi.
  apply decodeAudioData_Ok_inv in Hdec as (Hnc & Hfr & ->).
  cbn [channels] in Hch.
  destruct (planar_lookup _ _ _ _ _ _ _ Hch Hi) as (Hlt & Hlt' & ->).
  set (d := int16_view data) in *.
  assert (Hidx : (i * nc + ch < length d)%nat).
  { unfold d. rewrite length_int16_view.
    pose proof (Nat.Div0.mul_div_le (length data / 2) nc). nia. }
  apply lookup_lt_is_Some in Hidx as [v Hv].
  unfold pcm_sample. rewrite Hv. exists v.
  pose proof (int16_view_range data) as Hr.
  rewrite Forall_lookup in Hr. specialize (Hr _ _ Hv). cbv beta in Hr.
  split; [exact Hr|]. split; [reflexivity|].
  unfold Qle, Qlt. simpl. lia.
Qed.

Lemma decoded_samples_in_range_witness :
  exists v : Z,
    (-32768 <= v <= 32767)%Z /\ Num (-32768 # 32768) = Num (v # 32768) /\
    (-1 <= v # 32768)%Q /\ (v # 32768 < 1)%Q.
Proof.
  apply (decoded_samples_in_range [x00; x40; x00; x80] 24000 1
           {| numberOfChannels := 1; buf_length := 2; sampleRate := 24000;
              channels := [[Num (16384 # 32768); Num (-32768 # 32768)]] |}
           0 [Num (16384 # 32768); Num (-32768 # 32768)] 1);
    reflexivity.
Defined.

(** C4, as stated, fails: a block of three bytes for one channel is not
    decoded to one frame; the 16-bit view of an odd number of bytes
    cannot be made. *)
Lemma truncation_counterexample :
  let data := [x00; x40; x00] in
  (length data mod (2 * 1) <> 0)%nat /\
  decodeAudioData data 24000 1 = Throw RangeError /\
  ~ exists buf, decodeAudioData data 24000 1 = Ok buf
                /\ buf_length buf = (length data / (2 * 1))%nat.
Proof.
  cbv zeta. split; [simpl; lia|]. split; [reflexivity|].
  intros (buf & H & _). discriminate H.
Qed.

(** C4, amended. For a block whose length is not a multiple of twice the
    channel count: an odd length makes the decoder throw a [RangeError];
    an even length with at least one complete frame is decoded to
    floor(length / (2 * channels)) frames, the bytes of the partial frame
    being left out. *)
Theorem decodeAudioData_partial_frame data rate nc :
  (length data mod (2 * nc) <> 0)%nat ->
  (1 <= nc <= 32)%nat ->
  (8000 <= rate <= 96000)%positive ->
  let frames := (length data / (2 * nc))%nat in
  ((length data mod 2 = 1)%nat ->
     decodeAudioData data rate nc = Throw RangeError) /\
  ((length data mod 2 = 0)%nat -> (1 <= frames)%nat ->
     decodeAudioData data rate nc =
       Ok {| numberOfChannels := nc; buf_length := frames;
             sampleRate := rate;
             channels := planar (int16_view data) nc frames |}).
Proof.
  intros _ Hnc Hrate frames. rewrite decodeAudioData_eq. cbv zeta.
  assert (Hfr : (length data / 2 / nc)%nat = frames).
  { unfold frames. apply Nat.Div0.div_div. }
  rewrite Hfr. split.
  - intros Hodd. rewrite Hodd. reflexivity.
  - intros Heven Hone. rewrite Heven. simpl Nat.eqb. cbv iota.
    replace (_ && _) with true; [reflexivity|].
    symmetry. rewrite !andb_true_iff, !Nat.leb_le, !Pos.leb_le. lia.
Qed.

Lemma decodeAudioData_partial_frame_witness :
  let data := [x00; x40; x00; x80; x00; x20] in
  ((length data mod 2 = 1)%nat ->
     decodeAudioData data 24000 2 = Throw RangeError) /\
  ((length data mod 2 = 0)%nat -> (1 <= length data / (2 * 2))%nat ->
     decodeAudioData data 24000 2 =
       Ok {| numberOfChannels := 2; buf_length := 1; sampleRate := 24000;
             channels := [[Num (16384 # 32768)]; [Num (-32768 # 32768)]] |}).
Proof.
  apply (decodeAudioData_partial_frame [x00; x40; x00; x80; x00; x20] 24000 2);
    [simpl; lia | lia | lia].
Defined.

(** ** The outbound encoder and the round trip *)

Lemma int16_of_bytes_of_int16 v :
  match bytes_of_int16 v with
  | [lo; hi] => int16_of_bytes lo hi = wrap16 v
  | _ => False
  end.
Proof.
  unfold bytes_of_int16, int16_of_bytes. cbv zeta.
  rewrite !to_N_to_uint8.
  assert (Hu : (0 <= v mod 65536 < 65536)%Z) by (apply Z.mod_pos_bound; lia).
  set (u := (v mod 65536)%Z) in *.
  replace (Z.of_N (Z.to_N (u mod 256) mod 256)) with (u mod 256)%Z by lia.
  replace (Z.of_N (Z.to_N (u / 256) mod 256)) with (u / 256)%Z by lia.
  replace (u mod 256 + 256 * (u / 256))%Z with u by lia.
  unfold wrap16. fold u. rewrite Z.mod_small by lia. reflexivity.
Qed.

Lemma int16_view_buffer l : int16_view (int16_buffer l) = map wrap16 l.
Proof.
  induction l as [|v l IH]; [reflexivity|].
  unfold int16_buffer. cbn [map concat]. fold (int16_buffer l).
  pose proof (int16_of_bytes_of_int16 v) as Hv.
  destruct (bytes_of_int16 v) as [|lo [|hi [|? ?]]]; try contradiction.
  cbn [app int16_view]. rewrite Hv, IH. reflexivity.
Qed.

Lemma length_int16_buffer l : length (int16_buffer l) = (2 * length l)%nat.
Proof.
  induction l as [|v l IH]; [reflexivity|].
  unfold int16_buffer. cbn [map concat]. fold (int16_buffer l).
  rewrite length_app, IH. simpl. lia.
Qed.

Lemma to_int16_range x : (-32768 <= to_int16 x <= 32767)%Z.
Proof. destruct x; simpl; [apply wrap16_range|lia]. Qed.

Lemma int16_view_quantize input :
  int16_view (int16_buffer (quantize input)) = quantize input.
Proof.
  rewrite int16_view_buffer. unfold quantize. rewrite map_map.
  apply map_ext. intros x. apply wrap16_small, to_int16_range.
Qed.

(** The round trip in closed form, for a block that is not empty. *)
Lemma roundtrip_eq input rate :
  (8000 <= rate <= 96000)%positive -> input <> [] ->
  roundtrip input rate =
    Ok {| numberOfChannels := 1; buf_length := length input;
          sampleRate := rate;
          channels := planar (quantize input) 1 (length input) |}.
Proof.
  intros Hrate Hne. unfold roundtrip, outbound_payload.
  rewrite encode_Ok. cbn [mbind Result_bind rbind].
  rewrite decode_b64_encode. cbn [mbind Result_bind rbind].
  rewrite decodeAudioData_eq, length_int16_buffer.
  unfold quantize at 1 2 3. rewrite !length_map.
  cbv zeta.
  replace (2 * length input / 2 / 1)%nat with (length input)
    by (rewrite Nat.div_1_r, Nat.mul_comm, Nat.div_mul; lia).
  replace (2 * length input mod 2)%nat with 0%nat by lia.
  simpl Nat.eqb. cbv iota.
  replace (_ && _) with true.
  - rewrite int16_view_quantize. reflexivity.
  - symmetry. rewrite !andb_true_iff, !Nat.leb_le, !Pos.leb_le.
    destruct input; [contradiction|]. simpl. lia.
Qed.

Lemma trunc_bounds (n d t : Z) :
  (0 < d)%Z -> (- d <= n < d)%Z -> t = Z.quot (n * 32768) d ->
  (-32768 <= t <= 32767)%Z /\ (- d < n * 32768 - t * d < d)%Z.
Proof.
  intros Hd Hn ->.
  pose proof (Z.quot_rem' (n * 32768) d) as E.
  assert (Hr : (Z.abs (Z.rem (n * 32768) d) < d)%Z).
  { pose proof (Z.rem_abs (n * 32768) d). lia. }
  assert (Hs : (0 <= n * 32768 -> 0 <= Z.rem (n * 32768) d)%Z).
  { intros. apply Z.rem_nonneg; lia. }
  assert (Hs' : (n * 32768 <= 0 -> Z.rem (n * 32768) d <= 0)%Z).
  { intros. apply Z.rem_nonpos; lia. }
  set (t := Z.quot (n * 32768) d) in *. set (r := Z.rem (n * 32768) d) in *.
  clearbody t r.
  split; [nia | lia].
Qed.

(** Quantizing a sample of the nominal range and scaling it back moves
    it by less than one step of 1/32768. *)
Lemma quantization_error (x : Q) :
  (-1 <= x)%Q -> (x < 1)%Q ->
  (Qabs (x - (to_int16 (sample_mul (Num x) 32768) # 32768)) < 1 # 32768)%Q.
Proof.
  intros Hlo Hhi. destruct x as [n d].
  unfold Qle in Hlo. unfold Qlt in Hhi. cbn [Qnum Qden] in Hlo, Hhi.
  cbn [sample_mul to_int16]. unfold Qtrunc, Qmult. cbn [Qnum Qden].
  rewrite Pos.mul_1_r.
  destruct (trunc_bounds n (Z.pos d) _ ltac:(lia) ltac:(lia) eq_refl)
    as [Hr He].
  rewrite wrap16_small by exact Hr.
  set (t := Z.quot (n * 32768) (Z.pos d)) in *. clearbody t.
  apply Qabs_Qlt_condition. unfold Qlt, Qminus, Qplus, Qopp.
  cbn [Qnum Qden]. rewrite !Pos2Z.inj_mul. nia.
Qed.

(** C3. Encoding a block of samples and decoding the payload as one
    channel gives a buffer of the same length in which every sample that
    was in the range from -1 (included) to 1 (excluded) is reproduced
    with an error below 1/32768.  Nothing is said of the other samples. *)
Theorem roundtrip_within_quantization input rate i x :
  (8000 <= rate <= 96000)%positive ->
  input !! i = Some (Num x) ->
  (-1 <= x)%Q -> (x < 1)%Q ->
  exists buf cd y,
    roundtrip input rate = Ok buf /\
    buf_length buf = length input /\
    channels buf = [cd] /\
    cd !! i = Some (Num y) /\
    (Qabs (x - y) < 1 # 32768)%Q.
Proof.
  intros Hrate Hi Hlo Hhi.
  assert (Hne : input <> []) by (intros ->; discriminate).
  rewrite (roundtrip_eq input rate Hrate Hne).
  eexists _, _, (to_int16 (sample_mul (Num x) 32768) # 32768).
  split; [reflexivity|]. cbn [buf_length channels].
  split; [reflexivity|]. split; [reflexivity|]. split.
  - rewrite list_lookup_fmap.
    rewrite lookup_seq_lt by (apply lookup_lt_is_Some; eauto).
    cbn [fmap option_fmap option_map]. unfold pcm_sample, quantize.
    replace ((0 + i) * 1 + 0)%nat with i by lia.
    rewrite list_lookup_fmap, Hi. reflexivity.
  - apply quantization_error; assumption.
Qed.

Lemma roundtrip_within_quantization_witness :
  exists buf cd y,
    roundtrip [Num (1 # 3); Num (-1)] 16000 = Ok buf /\
    buf_length buf = 2%nat /\
    channels buf = [cd] /\
    cd !! 0%nat = Some (Num y) /\
    (Qabs ((1 # 3) - y) < 1 # 32768)%Q.
Proof.
  apply (roundtrip_within_quantization [Num (1 # 3); Num (-1)] 16000 0 (1 # 3));
    [lia | reflexivity | discriminate | reflexivity].
Defined.

(** ** The playback scheduler *)

Section Scheduler.
Local Open Scope Q_scope.

Lemma duration_nonneg b : 0 <= duration b.
Proof. unfold duration, Qle. simpl. lia. Qed.

Lemma Qmax_on_time (cursor now : Q) : now <= cursor -> Qmax cursor now = cursor.
Proof.
  intros H. unfold Qmax, GenericMinMax.gmax.
  destruct (cursor ?= now) eqn:E; try reflexivity.
  apply Qlt_alt in E. exfalso. exact (Qle_not_lt _ _ H E).
Qed.

Lemma onmessage_effects st msg now :
  onmessage_effect st msg now (onmessage st msg now).1.
Proof.
  unfold onmessage.
  destruct (audio_payload msg) as [a|e] eqn:Ha; [|apply effect_none].
  destruct (truthy a) as [audioBase64|] eqn:Ht; [|apply effect_none].
  destruct (audioContextRef st) as [ctx|] eqn:Hc; [|apply effect_none].
  destruct (decode_chunk audioBase64) as [buffer|e] eqn:Hd; cbn [fst].
  - apply (effect_play st msg now buffer ctx); [|assumption].
    unfold chunk_of. rewrite Ha, Ht, Hd. reflexivity.
  - apply effect_clamp. unfold chunk_of. rewrite Ha, Ht, Hd. reflexivity.
Qed.

Lemma onmessage_play st msg now buffer ctx :
  chunk_of msg = Some buffer -> audioContextRef st = Some ctx ->
  let start := Qmax (nextStartTimeRef st) now in
  (onmessage st msg now).1 =
    add_source {| src_buffer := buffer; src_ctx := ctx;
                  src_start := start; src_stopped := false |}
               (set_nextStartTime (start + duration buffer) st).
Proof.
  unfold chunk_of, onmessage. intros Hchunk ->.
  destruct (audio_payload msg) as [a|e]; [|discriminate].
  destruct (truthy a) as [audioBase64|]; [|discriminate].
  destruct (decode_chunk audioBase64) as [b|e]; [|discriminate].
  injection Hchunk as ->. reflexivity.
Qed.

Lemma onmessage_cursor_mono st msg now :
  nextStartTimeRef st <= nextStartTimeRef (onmessage st msg now).1.
Proof.
  destruct (onmessage_effects st msg now) as [|_|buffer ctx _ _ start];
    cbn [nextStartTimeRef set_nextStartTime add_source].
  - apply Qle_refl.
  - apply Q.le_max_l.
  - apply Qle_trans with start; [apply Q.le_max_l|].
    rewrite <- (Qplus_0_r start) at 1.
    apply Qplus_le_r, duration_nonneg.
Qed.

(** Handlers other than [onmessage] touch neither the cursor nor the
    Active Source Set. *)
Lemma step_frame st ev :
  (forall msg now, ev <> SessionMessage msg now) ->
  sourcesRef (step st ev) = sourcesRef st /\
  nextStartTimeRef (step st ev) = nextStartTimeRef st.
Proof.
  intros Hev. destruct ev as [| sid | sid | msg now | sid | e | sid input |];
    cbn [step].
  - unfold startLiveComm. destruct (isLiveActive st); auto.
  - auto.
  - auto.
  - destruct (Hev msg now eq_refl).
  - auto.
  - auto.
  - unfold onaudioprocess. destruct (outbound_payload input); auto.
  - unfold stopLiveComm. destruct (liveSessionRef st); auto.
Qed.

Lemma event_cases ev :
  (exists msg now, ev = SessionMessage msg now) \/
  (forall msg now, ev <> SessionMessage msg now).
Proof. destruct ev; eauto; right; discriminate. Qed.

Lemma step_cursor_mono st ev :
  nextStartTimeRef st <= nextStartTimeRef (step st ev).
Proof.
  destruct (event_cases ev) as [(msg & now & ->)|Hev].
  - apply onmessage_cursor_mono.
  - rewrite (proj2 (step_frame st ev Hev)). apply Qle_refl.
Qed.

Lemma run_cursor_mono st evs :
  nextStartTimeRef st <= nextStartTimeRef (run st evs).
Proof.
  revert st. induction evs as [|ev evs IH]; intros st; cbn [run foldl].
  - apply Qle_refl.
  - apply Qle_trans with (nextStartTimeRef (step st ev));
      [apply step_cursor_mono | apply IH].
Qed.

Lemma no_overlap_snoc l s :
  no_overlap l -> Forall (fun s0 => src_end s0 <= src_start s) l ->
  no_overlap (l ++ [s]).
Proof.
  intros Hl Hs i j s1 s2 Hij H1 H2.
  destruct (decide (j < length l)%nat) as [Hj|Hj].
  - rewrite lookup_app_l in H1, H2 by lia. eauto.
  - assert (Hi : (i < length l)%nat).
    { apply lookup_lt_Some in H2. rewrite length_app in H2. simpl in H2. lia. }
    rewrite lookup_app_l in H1 by lia.
    rewrite lookup_app_r in H2 by lia.
    destruct (j - length l)%nat; [|discriminate].
    injection H2 as <-.
    rewrite Forall_lookup in Hs. exact (Hs _ _ H1).
Qed.

Lemma onmessage_inv st msg now :
  scheduler_inv st -> scheduler_inv (onmessage st msg now).1.
Proof.
  intros [Hno Hend].
  destruct (onmessage_effects st msg now) as [|_|buffer ctx _ _ start];
    unfold scheduler_inv;
    cbn [nextStartTimeRef sourcesRef set_nextStartTime add_source].
  - auto.
  - split; [exact Hno|].
    eapply Forall_impl; [exact Hend|]. cbv beta. intros s Hs.
    apply Qle_trans with (nextStartTimeRef st); [exact Hs|apply Q.le_max_l].
  - assert (Hstart : Forall (fun s0 => src_end s0 <= start) (sourcesRef st)).
    { eapply Forall_impl; [exact Hend|]. cbv beta. intros s Hs.
      apply Qle_trans with (nextStartTimeRef st); [exact Hs|apply Q.le_max_l]. }
    split.
    + apply no_overlap_snoc; assumption.
    + apply Forall_app. split.
      * eapply Forall_impl; [exact Hstart|]. cbv beta. intros s Hs.
        apply Qle_trans with start; [exact Hs|].
        rewrite <- (Qplus_0_r start) at 1.
        apply Qplus_le_r, duration_nonneg.
      * apply Forall_cons_2; [|apply Forall_nil_2]. apply Qle_refl.
Qed.

Lemma step_inv st ev : scheduler_inv st -> scheduler_inv (step st ev).
Proof.
  intros Hinv. destruct (event_cases ev) as [(msg & now & ->)|Hev].
  - apply onmessage_inv, Hinv.
  - unfold scheduler_inv. destruct (step_frame st ev Hev) as [-> ->].
    exact Hinv.
Qed.

Lemma run_inv st evs : scheduler_inv st -> scheduler_inv (run st evs).
Proof.
  revert st. induction evs as [|ev evs IH]; intros st Hinv; cbn [run foldl].
  - exact Hinv.
  - apply IH, step_inv, Hinv.
Qed.

Lemma initial_inv : scheduler_inv initial.
Proof.
  split; [|apply Forall_nil_2].
  intros i j s1 s2 _ H. discriminate H.
Qed.

End Scheduler.

(** C2. The cursor never moves backward, whatever the output clock shows
    at a call, over single calls of [onmessage] and over whole runs of
    events; and in every state the application can reach, no two
    scheduled chunks overlap. *)
Theorem cursor_monotone_no_overlap :
  (forall st msg now,
     (nextStartTimeRef st <= nextStartTimeRef (onmessage st msg now).1)%Q) /\
  (forall st chunks,
     (nextStartTimeRef st <= nextStartTimeRef (schedule st chunks))%Q) /\
  (forall st evs, (nextStartTimeRef st <= nextStartTimeRef (run st evs))%Q) /\
  (forall evs, no_overlap (sourcesRef (run initial evs))).
Proof.
  split; [exact onmessage_cursor_mono|].
  split.
  { intros st chunks. revert st.
    induction chunks as [|c chunks IH]; intros st; cbn [schedule foldl].
    - apply Qle_refl.
    - eapply Qle_trans; [apply onmessage_cursor_mono | apply IH]. }
  split; [exact run_cursor_mono|].
  intros evs. exact (proj1 (run_inv initial evs initial_inv)).
Qed.


(** ** Gapless scheduling, on the doubles of the code *)

Section FloatOrder.

Lemma SFcompare_antisym x y c :
  SpecFloat.SFcompare x y = Some c -> SpecFloat.SFcompare y x = Some (CompOpp c).
Proof.
  destruct x as [sx|sx| |sx mx ex], y as [sy|sy| |sy my ey]; simpl;
    try discriminate; intros [= <-];
    repeat match goal with s : bool |- _ => destruct s end;
    try reflexivity;
    f_equal; rewrite (Z.compare_antisym ey ex);
    destruct (ey ?= ex)%Z; simpl; try reflexivity;
    rewrite (Pos.compare_cont_antisym mx my Eq); reflexivity.
Qed.

Lemma SFcompare_refl_l x y c :
  SpecFloat.SFcompare x y = Some c -> SpecFloat.SFcompare x x = Some Eq.
Proof.
  destruct x as [sx|sx| |sx mx ex], y as [sy|sy| |sy my ey]; simpl;
    try discriminate; intros _;
    repeat match goal with s : bool |- _ => destruct s end;
    try reflexivity;
    rewrite Z.compare_refl, Pos.compare_cont_refl; reflexivity.
Qed.

Lemma SFcompare_total x y :
  SpecFloat.SFcompare x x = Some Eq -> SpecFloat.SFcompare y y = Some Eq ->
  exists c, SpecFloat.SFcompare x y = Some c.
Proof.
  destruct x as [sx|sx| |sx mx ex], y as [sy|sy| |sy my ey]; simpl;
    try discriminate; eauto.
Qed.

Lemma is_nan_false a :
  PrimFloat.is_nan a = false <->
  SpecFloat.SFcompare (FloatOps.Prim2SF a) (FloatOps.Prim2SF a) = Some Eq.
Proof.
  unfold PrimFloat.is_nan. rewrite FloatAxioms.eqb_spec. unfold SpecFloat.SFeqb.
  destruct (SpecFloat.SFcompare _ _) as [[| |]|] eqn:E; simpl; split;
    try discriminate; reflexivity.
Qed.

Lemma leb_compare a b :
  PrimFloat.leb a b = true <->
  SpecFloat.SFcompare (FloatOps.Prim2SF a) (FloatOps.Prim2SF b) = Some Lt \/
  SpecFloat.SFcompare (FloatOps.Prim2SF a) (FloatOps.Prim2SF b) = Some Eq.
Proof.
  rewrite FloatAxioms.leb_spec. unfold SpecFloat.SFleb.
  destruct (SpecFloat.SFcompare _ _) as [[| |]|]; split; auto;
    try discriminate; intros [H|H]; discriminate H.
Qed.

Lemma ltb_compare a b :
  PrimFloat.ltb a b = true <->
  SpecFloat.SFcompare (FloatOps.Prim2SF a) (FloatOps.Prim2SF b) = Some Lt.
Proof.
  rewrite FloatAxioms.ltb_spec. unfold SpecFloat.SFltb.
  destruct (SpecFloat.SFcompare _ _) as [[| |]|]; split; auto; discriminate.
Qed.

Lemma eqb_compare a b :
  PrimFloat.eqb a b = true <->
  SpecFloat.SFcompare (FloatOps.Prim2SF a) (FloatOps.Prim2SF b) = Some Eq.
Proof.
  rewrite FloatAxioms.eqb_spec. unfold SpecFloat.SFeqb.
  destruct (SpecFloat.SFcompare _ _) as [[| |]|]; split; auto; discriminate.
Qed.

(** With the clock at or before the cursor, [Math.max] gives the
    cursor. *)
Lemma Math_max_on_time cursor now :
  PrimFloat.leb now cursor = true ->
  PrimFloat.eqb (Double.Math_max cursor now) cursor = true.
Proof.
  intros Hle. apply leb_compare in Hle.
  assert (Hnc : PrimFloat.is_nan cursor = false).
  { apply is_nan_false. destruct Hle as [H|H];
      apply SFcompare_antisym in H; exact (SFcompare_refl_l _ _ _ H). }
  assert (Hnn : PrimFloat.is_nan now = false).
  { apply is_nan_false. destruct Hle as [H|H];
      exact (SFcompare_refl_l _ _ _ H). }
  assert (Hcc : PrimFloat.eqb cursor cursor = true).
  { apply eqb_compare, is_nan_false, Hnc. }
  unfold Double.Math_max. rewrite Hnc, Hnn. cbn [orb].
  destruct (PrimFloat.ltb cursor now) eqn:Hlt.
  - apply ltb_compare in Hlt.
    destruct Hle as [H|H]; apply SFcompare_antisym in H;
      rewrite H in Hlt; discriminate Hlt.
  - destruct (PrimFloat.ltb now cursor) eqn:Hgt; [exact Hcc|].
    destruct (Double.is_negative_zero cursor); [|exact Hcc].
    apply eqb_compare. destruct Hle as [H|H]; [|exact H].
    apply ltb_compare in H. rewrite H in Hgt. discriminate Hgt.
Qed.

(** [Math.max] of two numbers is not before the second. *)
Lemma Math_max_ge_clock cursor now :
  PrimFloat.is_nan cursor = false -> PrimFloat.is_nan now = false ->
  PrimFloat.leb now (Double.Math_max cursor now) = true.
Proof.
  intros Hnc Hnn. unfold Double.Math_max. rewrite Hnc, Hnn. cbn [orb].
  pose proof (proj1 (is_nan_false _) Hnc) as Hc.
  pose proof (proj1 (is_nan_false _) Hnn) as Hn.
  assert (Hrefl : PrimFloat.leb now now = true).
  { apply leb_compare. right. exact Hn. }
  destruct (PrimFloat.ltb cursor now) eqn:Hlt; [exact Hrefl|].
  destruct (PrimFloat.ltb now cursor) eqn:Hgt.
  - apply ltb_compare in Hgt. apply leb_compare. left. exact Hgt.
  - destruct (Double.is_negative_zero cursor); [exact Hrefl|].
    apply leb_compare.
    destruct (SFcompare_total _ _ Hn Hc) as [[| |] H]; auto.
    apply SFcompare_antisym in H. simpl in H.
    apply ltb_compare in H. rewrite H in Hlt. discriminate Hlt.
Qed.

End FloatOrder.

Section Gapless.

Lemma double_onmessage_play st msg now buffer ctx :
  chunk_of msg = Some buffer -> Double.audioContextRef st = Some ctx ->
  let start := Double.Math_max (Double.nextStartTimeRef st) now in
  (Double.onmessage st msg now).1 =
    {| Double.audioContextRef := Some ctx;
       Double.nextStartTimeRef := PrimFloat.add start (Double.duration buffer);
       Double.sourcesRef := Double.sourcesRef st ++
         [{| Double.src_buffer := buffer; Double.src_ctx := ctx;
             Double.src_start := start; Double.src_stopped := false |}] |}.
Proof.
  unfold chunk_of, Double.onmessage. intros Hchunk Hctx. rewrite Hctx.
  destruct (audio_payload msg) as [a|e]; [|discriminate].
  destruct (truthy a) as [audioBase64|]; [|discriminate].
  destruct (decode_chunk audioBase64) as [b|e]; [|discriminate].
  injection Hchunk as ->. reflexivity.
Qed.

(** The two embeddings of [onmessage] differ in the numbers only: they
    report the same outcome and schedule the same buffer, if any, on the
    same context. *)
Lemma double_onmessage_agrees sd nowd st now msg :
  Double.audioContextRef sd = audioContextRef st ->
  map (fun s => (Double.src_buffer s, Double.src_ctx s)) (Double.sourcesRef sd)
    = map (fun s => (src_buffer s, src_ctx s)) (sourcesRef st) ->
  let rd := Double.onmessage sd msg nowd in
  let r := onmessage st msg now in
  rd.2 = r.2 /\
  Double.audioContextRef rd.1 = audioContextRef r.1 /\
  map (fun s => (Double.src_buffer s, Double.src_ctx s)) (Double.sourcesRef rd.1)
    = map (fun s => (src_buffer s, src_ctx s)) (sourcesRef r.1).
Proof.
  intros Hctx Hsrc. cbv zeta. unfold Double.onmessage, onmessage.
  rewrite Hctx.
  destruct (audio_payload msg) as [a|e]; [|cbn; repeat split; congruence].
  destruct (truthy a) as [audioBase64|]; [|cbn; repeat split; congruence].
  destruct (audioContextRef st) as [ctx|] eqn:Hc;
    [|cbn; repeat split; congruence].
  destruct (decode_chunk audioBase64) as [b|e]; cbn;
    rewrite ?Hc, ?map_app, ?Hsrc; repeat split; congruence.
Qed.

Lemma playable_buffers {T} (chunks : list (LiveServerMessage * T)) :
  Forall (fun c => is_Some (chunk_of c.1)) chunks ->
  exists bufs, Forall2 (fun c b => chunk_of c.1 = Some b) chunks bufs.
Proof.
  induction 1 as [|c chunks [b Hb] _ [bufs IH]].
  - exists []. constructor.
  - exists (b :: bufs). constructor; assumption.
Qed.

(** With every call on time, the run appends the chunks back to back,
    starting at the cursor. *)
Lemma double_schedule_on_time st chunks ctx bufs :
  Double.audioContextRef st = Some ctx ->
  Forall2 (fun c b => chunk_of c.1 = Some b) chunks bufs ->
  Double.on_time st chunks ->
  exists new,
    Double.sourcesRef (Double.schedule st chunks) = Double.sourcesRef st ++ new /\
    Double.linked (Double.nextStartTimeRef st) new bufs.
Proof.
  intros Hctx Hall. revert st Hctx.
  induction Hall as [|c b chunks bufs Hc _ IH]; intros st Hctx Hon.
  - exists []. cbn [Double.schedule foldl Double.linked].
    rewrite app_nil_r. auto.
  - destruct Hon as [Hnow Hon]. cbn [Double.schedule foldl].
    pose proof (double_onmessage_play st c.1 c.2 b ctx Hc Hctx) as Hplay.
    cbv zeta in Hplay. rewrite Hplay in Hon |- *.
    match type of Hon with Double.on_time ?s _ =>
      change (foldl _ s chunks) with (Double.schedule s chunks);
      destruct (IH s eq_refl Hon) as (new & Hnew & Hlinked)
    end.
    cbn [Double.sourcesRef Double.nextStartTimeRef] in Hnew, Hlinked.
    eexists (_ :: new). rewrite Hnew, <- app_assoc. split; [reflexivity|].
    cbn [Double.linked Double.src_buffer Double.src_start].
    split; [reflexivity|]. split; [|exact Hlinked].
    apply Math_max_on_time, Hnow.
Qed.

Lemma linked_buffers cursor new bufs :
  Double.linked cursor new bufs ->
  Forall2 (fun b s => Double.src_buffer s = b) bufs new.
Proof.
  revert cursor bufs. induction new as [|s new IH]; intros cursor [|b bufs];
    cbn [Double.linked]; try contradiction.
  - constructor.
  - intros (Hb & _ & Hl). constructor; [exact Hb|exact (IH _ _ Hl)].
Qed.

Lemma linked_head cursor new bufs s :
  Double.linked cursor new bufs -> new !! 0%nat = Some s ->
  PrimFloat.eqb (Double.src_start s) cursor = true.
Proof.
  destruct new as [|s0 new], bufs as [|b bufs]; cbn [Double.linked];
    try contradiction; try discriminate.
  intros (_ & H & _) [= <-]. exact H.
Qed.

Lemma linked_consecutive cursor new bufs k s s' :
  Double.linked cursor new bufs ->
  new !! k = Some s -> new !! S k = Some s' ->
  PrimFloat.eqb (Double.src_start s')
    (PrimFloat.add (Double.src_start s) (Double.duration (Double.src_buffer s)))
  = true.
Proof.
  revert cursor bufs k. induction new as [|s0 new IH];
    intros cursor [|b bufs] k; cbn [Double.linked];
    try contradiction; try discriminate.
  intros (Hb & _ & Hl). destruct k as [|k].
  - intros [= <-] Hs'. rewrite Hb. exact (linked_head _ _ _ _ Hl Hs').
  - intros Hs Hs'. exact (IH _ _ _ Hl Hs Hs').
Qed.

End Gapless.

(** C1. When a run of chunks is scheduled and every call after the first
    finds the output clock at or before the cursor, the sources added to
    the Active Source Set are the chunks in order, and each starts
    exactly where the one before it ends: its start time is equal, as a
    number, to the start of the one before plus that one's duration,
    the sum being the one the code computes and stores as the cursor.
    The first starts at [Math.max] of cursor and output clock, which is
    no earlier than the clock when both are numbers.  Cursor, clock and
    durations are the doubles of the code, and the on-time test is the
    comparison of doubles. *)
Theorem gapless_scheduling (st : Double.State) chunks :
  is_Some (Double.audioContextRef st) ->
  Forall (fun c => is_Some (chunk_of c.1)) chunks ->
  Double.on_time_after_first st chunks ->
  let new := Double.scheduled st (Double.schedule st chunks) in
  Forall2 (fun c s => chunk_of c.1 = Some (Double.src_buffer s)) chunks new /\
  (forall k s s', new !! k = Some s -> new !! S k = Some s' ->
     PrimFloat.eqb (Double.src_start s')
       (PrimFloat.add (Double.src_start s)
                      (Double.duration (Double.src_buffer s))) = true) /\
  (forall c s, chunks !! 0%nat = Some c -> new !! 0%nat = Some s ->
     Double.src_start s = Double.Math_max (Double.nextStartTimeRef st) c.2 /\
     (PrimFloat.is_nan (Double.nextStartTimeRef st) = false ->
      PrimFloat.is_nan c.2 = false ->
      PrimFloat.leb c.2 (Double.src_start s) = true)).
Proof.
  intros [ctx Hctx] Hall Hon new.
  destruct (playable_buffers chunks Hall) as [bufs Hbufs].
  unfold new, Double.scheduled. clear new.
  destruct Hbufs as [|c b chunks bufs Hc Hrest].
  - cbn [Double.schedule foldl]. rewrite drop_all.
    split; [constructor|]. split; intros; discriminate.
  - cbn [Double.schedule foldl].
    pose proof (double_onmessage_play st c.1 c.2 b ctx Hc Hctx) as Hplay.
    cbv zeta in Hplay. cbn [Double.on_time_after_first] in Hon.
    rewrite Hplay in Hon |- *.
    match type of Hon with Double.on_time ?s _ =>
      change (foldl _ s chunks) with (Double.schedule s chunks);
      destruct (double_schedule_on_time s chunks ctx bufs eq_refl Hrest Hon)
        as (new & Hnew & Hlinked)
    end.
    cbn [Double.sourcesRef Double.nextStartTimeRef] in Hnew, Hlinked.
    rewrite Hnew, <- app_assoc, drop_app_length. cbn [app].
    set (start := Double.Math_max (Double.nextStartTimeRef st) c.2) in *.
    split; [|split].
    + constructor; [exact Hc|].
      pose proof (linked_buffers _ _ _ Hlinked) as Hb.
      clear -Hrest Hb. revert new Hb.
      induction Hrest as [|c b chunks bufs Hc _ IH]; intros new Hb;
        inversion Hb; subst; constructor; auto.
    + intros [|k] s s'.
      * intros [= <-] Hs'. cbn [Double.src_start Double.src_buffer].
        exact (linked_head _ _ _ _ Hlinked Hs').
      * intros Hs Hs'. exact (linked_consecutive _ _ _ _ _ _ Hlinked Hs Hs').
    + intros c' s [= <-] [= <-]. cbn [Double.src_start].
      split; [reflexivity|]. intros Hnc Hnn.
      apply Math_max_ge_clock; assumption.
Qed.

Lemma gapless_scheduling_witness :
  let st := Double.started 0 in
  let chunks :=
    [(silence 2, PrimFloat.zero);
     (silence 1,
      PrimFloat.div (Double.number_of_Z 1) (Double.number_of_Z 24000));
     (silence 3,
      PrimFloat.div (Double.number_of_Z 3) (Double.number_of_Z 24000))] in
  let new := Double.scheduled st (Double.schedule st chunks) in
  Forall2 (fun c s => chunk_of c.1 = Some (Double.src_buffer s)) chunks new /\
  (forall k s s', new !! k = Some s -> new !! S k = Some s' ->
     PrimFloat.eqb (Double.src_start s')
       (PrimFloat.add (Double.src_start s)
                      (Double.duration (Double.src_buffer s))) = true) /\
  (forall c s, chunks !! 0%nat = Some c -> new !! 0%nat = Some s ->
     Double.src_start s = Double.Math_max (Double.nextStartTimeRef st) c.2 /\
     (PrimFloat.is_nan (Double.nextStartTimeRef st) = false ->
      PrimFloat.is_nan c.2 = false ->
      PrimFloat.leb c.2 (Double.src_start s) = true)).
Proof.
  apply gapless_scheduling.
  - eexists. reflexivity.
  - repeat constructor; eexists; vm_compute; reflexivity.
  - vm_compute. repeat split.
Defined.

(** Rounding matters for the on-time test: after 19 chunks of 128
    frames scheduled at clock 0, the cursor the code has computed is
    below the double nearest to 2432/24000, so a call at that clock
    reading is late and starts at the clock; and a cursor that was on
    time starts the next chunk at the very sum. *)
Example double_cursor_rounding :
  let st := Double.schedule (Double.started 0)
              (repeat (silence 128, PrimFloat.zero) 19) in
  let clock :=
    PrimFloat.div (Double.number_of_Z 2432) (Double.number_of_Z 24000) in
  PrimFloat.ltb (Double.nextStartTimeRef st) clock = true /\
  PrimFloat.leb clock (Double.nextStartTimeRef st) = false /\
  map Double.src_start
      (Double.scheduled st (Double.schedule st [(silence 128, clock)]))
    = [clock].
Proof. vm_compute. repeat split. Qed.

(** C10. A message without an audio payload, or one that arrives while
    no audio context is set, changes nothing: the cursor and the Active
    Source Set stay as they were, and so does the rest of the state. *)
Theorem onmessage_without_audio st msg now :
  (forall audioBase64, audio_payload msg <> Ok (Some audioBase64))
  \/ audioContextRef st = None ->
  let st' := (onmessage st msg now).1 in
  nextStartTimeRef st' = nextStartTimeRef st /\
  sourcesRef st' = sourcesRef st /\
  st' = st.
Proof.
  intros H st'. assert (Hst : st' = st); [|rewrite Hst; auto].
  unfold st', onmessage.
  destruct (audio_payload msg) as [[s|]|e]; try reflexivity.
  destruct H as [H|H].
  - destruct (H s eq_refl).
  - rewrite H. destruct (truthy (Some s)); reflexivity.
Qed.

Lemma onmessage_without_audio_witness :
  let msg := {| serverContent := Some {| modelTurn := None |} |} in
  let st := (startLiveComm initial).1 in
  let st' := (onmessage st msg 5).1 in
  nextStartTimeRef st' = nextStartTimeRef st /\
  sourcesRef st' = sourcesRef st /\
  st' = st.
Proof.
  apply onmessage_without_audio. left. intros s. discriminate.
Defined.

(** ** The session lifecycle *)

(** C5, as stated, fails: after a first start request, while the session
    is still being opened, a second request is not a no-op; it makes a
    second output context and opens a second session. *)
Lemma start_while_connecting_counterexample :
  let st := (startLiveComm initial).1 in
  Connecting st /\
  startLiveComm st <> (st, None) /\
  length (audioContexts (startLiveComm st).1) = 2%nat /\
  sessions (startLiveComm st).1 = [Opening; Opening].
Proof.
  cbv zeta. split; [|split; [|split]].
  - split; [reflexivity|]. apply list_elem_of_here.
  - discriminate.
  - reflexivity.
  - reflexivity.
Qed.

(** C5, amended. A start request while the session is active is a no-op:
    the state is left as it was (no further audio context, session or
    microphone stream), and the call has nothing left to run. *)
Theorem start_while_active st :
  Active st -> startLiveComm st = (st, None).
Proof. unfold Active, startLiveComm. intros ->. reflexivity. Qed.

Lemma start_while_active_witness :
  let st := run initial [UserStart; SessionOpen 0; MicGranted 0] in
  startLiveComm st = (st, None).
Proof. apply start_while_active. reflexivity. Defined.

(** C6, as stated, fails: after a chunk was scheduled, stopping leaves
    the source in the Active Source Set, not stopped, and the cursor
    where it was. *)
Lemma stop_counterexample :
  let st := run initial
    [UserStart; SessionOpen 0; MicGranted 0;
     SessionMessage (audio_message (of_ascii_string "AEAAgA==")) 0] in
  let st' := stopLiveComm st in
  length (sourcesRef st) = 1%nat /\
  ~ (Forall (fun s => src_stopped s = true) (sourcesRef st')) /\
  sourcesRef st' <> [] /\
  ~ (nextStartTimeRef st' == 0)%Q.
Proof.
  cbv zeta. split; [vm_compute; reflexivity|]. split; [|split].
  - intros H. vm_compute in H. apply Forall_inv in H. discriminate H.
  - intros H. vm_compute in H. discriminate H.
  - vm_compute. discriminate.
Qed.

(** C6, amended. Stopping stops the tracks of the stored microphone
    stream, closes the stored input context and clears the active flag;
    the Active Source Set (with the state of every handle in it), the
    cursor, the output context and the remote sessions are left as they
    were. *)
Theorem stopLiveComm_effect st :
  let st' := stopLiveComm st in
  isLiveActive st' = false /\
  sourcesRef st' = sourcesRef st /\
  nextStartTimeRef st' = nextStartTimeRef st /\
  audioContextRef st' = audioContextRef st /\
  sessions st' = sessions st /\
  match liveSessionRef st with
  | Some h =>
      micStreams st' = <[lh_stream h := false]> (micStreams st) /\
      audioContexts st' =
        alter (fun c => (c.1, true)) (lh_inCtx h) (audioContexts st)
  | None =>
      micStreams st' = micStreams st /\ audioContexts st' = audioContexts st
  end.
Proof.
  unfold stopLiveComm. destruct (liveSessionRef st) as [h|]; cbn;
    repeat split; reflexivity.
Qed.

(** C7, as stated, fails: the error callback of an active session leaves
    the active flag set. *)
Lemma onerror_counterexample :
  let st := run initial [UserStart; SessionOpen 0; MicGranted 0] in
  Active st /\ isLiveActive (onerror st "socket failure") <> false.
Proof. cbv zeta. split; [reflexivity|discriminate]. Qed.

(** C7, amended. The error callback of an active session logs the error
    and changes nothing else: the session stays active; the active flag
    is cleared by the close callback. *)
Theorem onerror_logs_only st e :
  Active st ->
  let st' := onerror st e in
  console st' = console st ++ [console_error e] /\
  Active st' /\
  st' = log (console_error e) st /\
  liveSessionRef st' = liveSessionRef st /\
  sourcesRef st' = sourcesRef st /\
  nextStartTimeRef st' = nextStartTimeRef st /\
  sessions st' = sessions st /\
  isLiveActive (onclose st') = false.
Proof. intros Hact. cbv zeta. repeat split; try reflexivity. exact Hact. Qed.

Lemma onerror_logs_only_witness :
  let st := run initial [UserStart; SessionOpen 0; MicGranted 0] in
  let st' := onerror st "socket failure" in
  console st' = console st ++ [console_error "socket failure"] /\
  Active st' /\
  st' = log (console_error "socket failure") st /\
  liveSessionRef st' = liveSessionRef st /\
  sourcesRef st' = sourcesRef st /\
  nextStartTimeRef st' = nextStartTimeRef st /\
  sessions st' = sessions st /\
  isLiveActive (onclose st') = false.
Proof. apply onerror_logs_only. reflexivity. Defined.

(** * Further properties of the codec helpers *)

Section CodecFacts.
Local Open Scope N_scope.

Lemma length_b64_encode l :
  length (b64_encode l) = (4 * ((length l + 2) / 3))%nat.
Proof.
  unfold b64_encode, padding. rewrite length_app, length_map.
  destruct (length_sextets l) as (k & [[H1 H2]|[[H1 H2]|[H1 H2]]]).
  - replace (length l mod 3)%nat with 0%nat by lia. cbn [length]. lia.
  - replace (length l mod 3)%nat with 1%nat by lia. cbn [length]. lia.
  - replace (length l mod 3)%nat with 2%nat by lia. cbn [length]. lia.
Qed.

Lemma b64_encode_alphabet l :
  Forall (fun b => b < 256) l ->
  Forall (fun c => is_Some (b64_index c) \/ c = pad_char) (b64_encode l).
Proof.
  intros Hl. unfold b64_encode. apply Forall_app. split.
  - apply Forall_map. eapply Forall_impl; [apply sextets_bounded, Hl|].
    cbv beta. intros s Hs. left. rewrite b64_index_char by exact Hs. eauto.
  - unfold padding.
    destruct (length l mod 3)%nat as [|[|[|?]]];
      repeat apply Forall_cons_2; try apply Forall_nil_2; auto.
Qed.

Lemma elem_of_strip_padding (c : N) s :
  c ∈ s -> c <> pad_char -> c ∈ strip_padding s.
Proof.
  rewrite !list_elem_of_In. intros Hin Hc. unfold strip_padding.
  pose proof Hin as Hrev. apply in_rev in Hrev.
  destruct (rev s) as [|c1 [|c2 r]] eqn:E.
  - destruct Hrev.
  - destruct Hrev as [->|[]]. apply N.eqb_neq in Hc. rewrite Hc. exact Hin.
  - destruct (N.eqb_spec c1 pad_char) as [->|H1]; [|exact Hin].
    destruct Hrev as [Heq|Hrev]; [congruence|].
    destruct (N.eqb_spec c2 pad_char) as [->|H2].
    + destruct Hrev as [Heq|Hrev]; [congruence|].
      apply in_rev in Hrev. exact Hrev.
    + apply in_rev in Hrev. exact Hrev.
Qed.

Lemma atob_rejects (c : N) s :
  c ∈ s -> b64_index c = None -> c <> pad_char ->
  is_ascii_whitespace c = false ->
  atob s = Throw InvalidCharacterError.
Proof.
  intros Hin Hidx Hpad Hws. unfold atob.
  set (data := List.filter _ s).
  assert (Hd : c ∈ data).
  { apply list_elem_of_In, filter_In. split; [apply list_elem_of_In, Hin|].
    rewrite Hws. reflexivity. }
  set (data' := if (length data mod 4 =? 0)%nat then _ else _).
  assert (Hd' : c ∈ data').
  { unfold data'. destruct (_ =? _)%nat; [|exact Hd].
    apply elem_of_strip_padding; assumption. }
  destruct (_ =? 1)%nat; [reflexivity|].
  replace (mapM b64_index data') with (@None (list N)); [reflexivity|].
  symmetry. apply mapM_None. apply Exists_exists. exists c. auto.
Qed.

End CodecFacts.

(** X1. [encode] never throws; its text has four characters for every
    three bytes begun, and holds only characters of the base64 alphabet
    and the padding sign. *)
Theorem encode_shape (b : list byte) :
  exists s,
    encode b = Ok s /\
    length s = (4 * ((length b + 2) / 3))%nat /\
    Forall (fun c => is_Some (b64_index c) \/ c = pad_char) s.
Proof.
  exists (b64_encode (map Byte.to_N b)). split; [apply encode_Ok|]. split.
  - rewrite length_b64_encode, length_map. reflexivity.
  - apply b64_encode_alphabet, bytes_bounded.
Qed.

(** X2. [encode] is injective: byte arrays with the same text are the
    same. *)
Theorem encode_injective (b1 b2 : list byte) :
  encode b1 = encode b2 -> b1 = b2.
Proof.
  rewrite !encode_Ok. intros [= H].
  assert (Hd : decode (b64_encode (map Byte.to_N b1)) = Ok b1)
    by apply decode_b64_encode.
  rewrite H, decode_b64_encode in Hd. congruence.
Qed.

Lemma encode_injective_witness : [x01; x02] = [x01; x02].
Proof. apply (encode_injective [x01; x02] [x01; x02]). reflexivity. Defined.

(** X3. [decode] throws an [InvalidCharacterError] on any text holding a
    character that is neither of the base64 alphabet, nor the padding
    sign, nor ASCII whitespace, wherever the character stands. *)
Theorem decode_rejects_foreign (s : jsstring) (c : N) :
  c ∈ s -> b64_index c = None -> c <> pad_char ->
  is_ascii_whitespace c = false ->
  decode s = Throw InvalidCharacterError.
Proof.
  intros Hin Hidx Hpad Hws. unfold decode.
  rewrite (atob_rejects c s Hin Hidx Hpad Hws). reflexivity.
Qed.

Lemma decode_rejects_foreign_witness :
  decode (of_ascii_string "TW*u") = Throw InvalidCharacterError.
Proof.
  apply (decode_rejects_foreign (of_ascii_string "TW*u") 42%N).
  - vm_compute. do 2 apply list_elem_of_further. apply list_elem_of_here.
  - reflexivity.
  - discriminate.
  - reflexivity.
Defined.

Lemma int16_view_lookup data k lo hi :
  data !! (2 * k)%nat = Some lo -> data !! (2 * k + 1)%nat = Some hi ->
  int16_view data !! k = Some (int16_of_bytes lo hi).
Proof.
  revert data. induction k as [|k IH]; intros data.
  - destruct data as [|a [|b r]]; try discriminate.
    intros [= <-] [= <-]. reflexivity.
  - destruct data as [|a [|b r]]; try discriminate.
    replace (2 * S k)%nat with (S (S (2 * k))) by lia.
    replace (S (S (2 * k)) + 1)%nat with (S (S (2 * k + 1))) by lia.
    cbn [int16_view]. intros H1 H2. exact (IH r H1 H2).
Qed.

(** X4. The outcomes of [decodeAudioData] for parameters that every
    implementation of the platform supports (1 to 32 channels, a rate
    from 8000 to 96000 Hz): a [RangeError] exactly for an odd number of
    bytes; a buffer exactly for an even number of bytes holding at least
    one frame; a [NotSupportedError] exactly for an even number of bytes
    holding no complete frame (so also for no bytes at all). *)
Theorem decodeAudioData_outcome data rate nc :
  (1 <= nc <= 32)%nat ->
  (8000 <= rate <= 96000)%positive ->
  (decodeAudioData data rate nc = Throw RangeError
     <-> (length data mod 2 = 1)%nat) /\
  ((exists buf, decodeAudioData data rate nc = Ok buf)
     <-> (length data mod 2 = 0)%nat /\ (2 * nc <= length data)%nat) /\
  (decodeAudioData data rate nc = Throw NotSupportedError
     <-> (length data mod 2 = 0)%nat /\ (length data < 2 * nc)%nat).
Proof.
  intros Hnc Hrate. rewrite decodeAudioData_eq. cbv zeta.
  assert (Hfr : (1 <= length data / 2 / nc)%nat <-> (nc <= length data / 2)%nat).
  { apply (Nat.div_str_pos_iff (length data / 2) nc). lia. }
  destruct (length data mod 2 =? 0)%nat eqn:Hpar.
  - apply Nat.eqb_eq in Hpar.
    destruct (_ && _) eqn:Hok.
    + rewrite !andb_true_iff, !Nat.leb_le, !Pos.leb_le in Hok.
      assert (nc <= length data / 2)%nat by (apply Hfr; lia).
      split; [split; [discriminate|lia]|].
      split; [split; [intros _; lia | eauto]|].
      split; [discriminate|lia].
    + assert (Hn : ~ (nc <= length data / 2)%nat).
      { intros H. apply Hfr in H.
        apply not_true_iff_false in Hok. apply Hok.
        rewrite !andb_true_iff, !Nat.leb_le, !Pos.leb_le. lia. }
      split; [split; [discriminate|lia]|].
      split; [split; [intros [buf Hb]; discriminate Hb | lia]|].
      split; [intros _; lia | reflexivity].
  - apply Nat.eqb_neq in Hpar.
    split; [split; [lia|reflexivity]|].
    split; [split; [intros [buf Hb]; discriminate Hb | lia]|].
    split; [discriminate | lia].
Qed.

Lemma decodeAudioData_outcome_witness :
  let data := [x00; x40] in
  (decodeAudioData data 24000 2 = Throw RangeError
     <-> (length data mod 2 = 1)%nat) /\
  ((exists buf, decodeAudioData data 24000 2 = Ok buf)
     <-> (length data mod 2 = 0)%nat /\ (2 * 2 <= length data)%nat) /\
  (decodeAudioData data 24000 2 = Throw NotSupportedError
     <-> (length data mod 2 = 0)%nat /\ (length data < 2 * 2)%nat).
Proof. apply (decodeAudioData_outcome [x00; x40] 24000 2); lia. Defined.

(** X5. De-interleaving: sample [i] of channel [ch] of the decoded buffer
    is the 16-bit little-endian integer at bytes [2(i*nc+ch)] and
    [2(i*nc+ch)+1] of the block, divided by 32768. *)
Theorem decodeAudioData_sample data rate nc buf ch i lo hi :
  decodeAudioData data rate nc = Ok buf ->
  (ch < nc)%nat -> (i < buf_length buf)%nat ->
  data !! (2 * (i * nc + ch))%nat = Some lo ->
  data !! (2 * (i * nc + ch) + 1)%nat = Some hi ->
  exists cd,
    channels buf !! ch = Some cd /\
    length cd = buf_length buf /\
    cd !! i = Some (Num (int16_of_bytes lo hi # 32768)).
Proof.
  intros Hdec Hch Hi Hlo Hhi.
  apply decodeAudioData_Ok_inv in Hdec as (_ & _ & ->).
  cbn [channels buf_length] in *. unfold planar.
  eexists. rewrite list_lookup_fmap, lookup_seq_lt by exact Hch.
  split; [reflexivity|]. rewrite length_map, length_seq.
  split; [reflexivity|].
  rewrite list_lookup_fmap, lookup_seq_lt by exact Hi.
  cbn [fmap option_fmap option_map]. unfold pcm_sample.
  rewrite !Nat.add_0_l, (int16_view_lookup _ _ _ _ Hlo Hhi). reflexivity.
Qed.

Lemma decodeAudioData_sample_witness :
  exists cd,
    channels {| numberOfChannels := 2; buf_length := 1; sampleRate := 24000;
                channels := [[Num (16384 # 32768)]; [Num (-32768 # 32768)]] |}
      !! 1%nat = Some cd /\
    length cd = 1%nat /\
    cd !! 0%nat = Some (Num (int16_of_bytes x00 x80 # 32768)).
Proof.
  apply (decodeAudioData_sample [x00; x40; x00; x80; x00; x20] 24000 2
           {| numberOfChannels := 2; buf_length := 1; sampleRate := 24000;
              channels := [[Num (16384 # 32768)]; [Num (-32768 # 32768)]] |}
           1 0 x00 x80); [reflexivity | simpl; lia | simpl; lia
                         | reflexivity | reflexivity].
Defined.

Lemma trunc_sign (n d : Z) :
  (0 < d)%Z ->
  let t := Z.quot (n * 32768) d in
  ((0 <= n)%Z -> (0 <= t)%Z /\ (t * d <= n * 32768)%Z) /\
  ((n <= 0)%Z -> (t <= 0)%Z /\ (n * 32768 <= t * d)%Z).
Proof.
  intros Hd t. pose proof (Z.quot_rem' (n * 32768) d) as E. fold t in E.
  split; intros Hn.
  - assert (0 <= Z.rem (n * 32768) d)%Z by (apply Z.rem_nonneg; lia).
    split; [apply Z.quot_pos; lia | lia].
  - assert (Z.rem (n * 32768) d <= 0)%Z by (apply Z.rem_nonpos; lia).
    split; [|lia].
    assert (0 <= Z.quot (- (n * 32768)) d)%Z by (apply Z.quot_pos; lia).
    rewrite Z.quot_opp_l in H0 by lia. fold t in H0. lia.
Qed.

(** X6. Quantization truncates toward zero: a sample of the nominal
    range is stored as a 16-bit value that, scaled back, lies between
    zero and the sample, so the magnitude never grows and the sign never
    flips. *)
Theorem quantize_toward_zero (x : Q) :
  (-1 <= x)%Q -> (x < 1)%Q ->
  let q := to_int16 (sample_mul (Num x) 32768) in
  ((0 <= x)%Q -> (0 <= q)%Z /\ (q # 32768 <= x)%Q) /\
  ((x <= 0)%Q -> (q <= 0)%Z /\ (x <= q # 32768)%Q).
Proof.
  intros Hlo Hhi. destruct x as [n d].
  unfold Qle in Hlo. unfold Qlt in Hhi. cbn [Qnum Qden] in Hlo, Hhi.
  cbn [sample_mul to_int16]. unfold Qtrunc, Qmult. cbn [Qnum Qden].
  rewrite Pos.mul_1_r.
  destruct (trunc_bounds n (Z.pos d) _ ltac:(lia) ltac:(lia) eq_refl)
    as [Hr _].
  rewrite wrap16_small by exact Hr.
  destruct (trunc_sign n (Z.pos d) ltac:(lia)) as [Hpos Hneg].
  cbv zeta in Hpos, Hneg. unfold Qle. cbn [Qnum Qden].
  split; intros Hx; [destruct Hpos as [? ?]|destruct Hneg as [? ?]]; lia.
Qed.

Lemma quantize_toward_zero_witness :
  let q := to_int16 (sample_mul (Num (-(1 # 3))) 32768) in
  ((0 <= -(1 # 3))%Q -> (0 <= q)%Z /\ (q # 32768 <= -(1 # 3))%Q) /\
  ((-(1 # 3) <= 0)%Q -> (q <= 0)%Z /\ (-(1 # 3) <= q # 32768)%Q).
Proof.
  apply (quantize_toward_zero (-(1 # 3))); [discriminate|reflexivity].
Defined.

(** X7. The capture callback never drops a block: every call sends
    exactly one realtime input, and its payload decodes to two bytes per
    sample, the bytes being the 16-bit values of the quantized samples,
    low byte first. *)
Theorem onaudioprocess_sends st sid input :
  exists payload,
    onaudioprocess st sid input = send sid payload st /\
    decode payload = Ok (int16_buffer (quantize input)) /\
    length (int16_buffer (quantize input)) = (2 * length input)%nat /\
    int16_view (int16_buffer (quantize input)) = quantize input.
Proof.
  exists (b64_encode (map Byte.to_N (int16_buffer (quantize input)))).
  unfold onaudioprocess, outbound_payload. rewrite encode_Ok.
  split; [reflexivity|]. split; [apply decode_b64_encode|]. split.
  - rewrite length_int16_buffer. unfold quantize. rewrite length_map.
    reflexivity.
  - apply int16_view_quantize.
Qed.

(** * Further properties of the scheduler *)


Lemma truthy_nonempty (s : jsstring) : s <> [] -> truthy (Some s) = Some s.
Proof. destruct s; [contradiction|reflexivity]. Qed.



Lemma decode_chunk_errors s e :
  decode_chunk s = Throw e ->
  e = InvalidCharacterError \/ e = RangeError \/ e = NotSupportedError.
Proof.
  unfold decode_chunk, decode, atob.
  destruct (_ =? 1)%nat; cbn [mbind Result_bind rbind].
  - intros [= <-]. auto.
  - destruct (mapM _ _); cbn [mbind Result_bind rbind].
    + rewrite decodeAudioData_eq. cbv zeta.
      destruct (_ =? 0)%nat; [destruct (_ && _)|]; intros [= <-]; auto.
    + intros [= <-]. auto.
Qed.

(** X9. A payload that cannot be decoded still moves the cursor: with an
    output context set, the handler raises the cursor to the output
    clock before it decodes, so when decoding throws (an
    [InvalidCharacterError], [RangeError] or [NotSupportedError], never
    anything else) nothing is scheduled but the cursor is the later of
    its old value and the output clock. *)
Theorem onmessage_undecodable st msg s ctx now e :
  audio_payload msg = Ok (Some s) -> s <> [] ->
  audioContextRef st = Some ctx ->
  decode_chunk s = Throw e ->
  onmessage st msg now
    = (set_nextStartTime (Qmax (nextStartTimeRef st) now) st, Throw e) /\
  (e = InvalidCharacterError \/ e = RangeError \/ e = NotSupportedError).
Proof.
  intros Hpay Hne Hctx Hdec. split; [|exact (decode_chunk_errors s e Hdec)].
  unfold onmessage. rewrite Hpay, (truthy_nonempty s Hne), Hctx, Hdec.
  reflexivity.
Qed.

Lemma onmessage_undecodable_witness :
  let st := (startLiveComm initial).1 in
  onmessage st (audio_message (of_ascii_string "AEAA")) 3
    = (set_nextStartTime (Qmax (nextStartTimeRef st) 3) st, Throw RangeError)
  /\ (RangeError = InvalidCharacterError \/ RangeError = RangeError
      \/ RangeError = NotSupportedError).
Proof.
  apply (onmessage_undecodable (startLiveComm initial).1
           (audio_message (of_ascii_string "AEAA"))
           (of_ascii_string "AEAA") 0 3 RangeError);
    [reflexivity | discriminate | reflexivity | reflexivity].
Defined.

Lemma onmessage_keeps st msg now :
  let st' := (onmessage st msg now).1 in
  isLiveActive st' = isLiveActive st /\
  liveSessionRef st' = liveSessionRef st /\
  audioContextRef st' = audioContextRef st /\
  audioContexts st' = audioContexts st /\
  sessions st' = sessions st /\
  micStreams st' = micStreams st /\
  sent st' = sent st /\
  console st' = console st.
Proof.
  cbv zeta.
  destruct (onmessage_effects st msg now) as [|_|buffer ctx _ _ start];
    repeat split; reflexivity.
Qed.

(** X10. [onmessage] touches nothing but the cursor and the Active
    Source Set: the active flag, the stored session, the output context
    reference, the contexts, sessions and streams of the platform, what
    was sent and the console are as before, whatever the message. *)
Theorem onmessage_frame st msg now :
  let st' := (onmessage st msg now).1 in
  isLiveActive st' = isLiveActive st /\
  liveSessionRef st' = liveSessionRef st /\
  audioContextRef st' = audioContextRef st /\
  audioContexts st' = audioContexts st /\
  sessions st' = sessions st /\
  micStreams st' = micStreams st /\
  sent st' = sent st /\
  console st' = console st.
Proof. exact (onmessage_keeps st msg now). Qed.

Lemma step_sources_prefix st ev :
  sourcesRef st `prefix_of` sourcesRef (step st ev).
Proof.
  destruct (event_cases ev) as [(msg & now & ->)|Hev].
  - cbn [step].
    destruct (onmessage_effects st msg now) as [|_|buffer ctx _ _ start];
      cbn [sourcesRef set_nextStartTime add_source];
      [reflexivity | reflexivity | apply prefix_app_r; reflexivity].
  - rewrite (proj1 (step_frame st ev Hev)). reflexivity.
Qed.

Lemma step_never_stops st ev :
  Forall (fun s => src_stopped s = false) (sourcesRef st) ->
  Forall (fun s => src_stopped s = false) (sourcesRef (step st ev)).
Proof.
  intros H. destruct (event_cases ev) as [(msg & now & ->)|Hev].
  - cbn [step].
    destruct (onmessage_effects st msg now) as [|_|buffer ctx _ _ start];
      cbn [sourcesRef set_nextStartTime add_source]; try exact H.
    apply Forall_app. split; [exact H|].
    apply Forall_cons_2; [reflexivity|apply Forall_nil_2].
  - rewrite (proj1 (step_frame st ev Hev)). exact H.
Qed.

(** X11. The Active Source Set only grows, and no handle in it is ever
    stopped: over any run of events the earlier set is a prefix of the
    later one, and in every state the application can reach every source
    is as it was started. *)
Theorem sources_append_only :
  (forall st evs, sourcesRef st `prefix_of` sourcesRef (run st evs)) /\
  (forall evs,
     Forall (fun s => src_stopped s = false) (sourcesRef (run initial evs))).
Proof.
  split.
  - intros st evs. revert st.
    induction evs as [|ev evs IH]; intros st; cbn [run foldl].
    + reflexivity.
    + etrans; [apply step_sources_prefix | apply IH].
  - intros evs.
    assert (H : forall st, Forall (fun s => src_stopped s = false) (sourcesRef st) ->
                Forall (fun s => src_stopped s = false) (sourcesRef (run st evs))).
    { induction evs as [|ev evs IH]; intros st Hst; cbn [run foldl].
      - exact Hst.
      - apply IH, step_never_stops, Hst. }
    apply H. apply Forall_nil_2.
Qed.

Lemma planar_mono_in_range data frames :
  (frames <= length (int16_view data))%nat ->
  Forall (fun s => exists q, s = Num q /\ (-1 <= q)%Q /\ (q < 1)%Q)
    (map (fun i => pcm_sample (int16_view data) (i * 1 + 0)) (seq 0 frames)).
Proof.
  intros Hle. apply Forall_map, Forall_seq. intros i Hi. cbv beta.
  assert (Hidx : (i * 1 + 0 < length (int16_view data))%nat) by lia.
  apply lookup_lt_is_Some in Hidx as [v Hv].
  unfold pcm_sample. rewrite Hv. exists (v # 32768). split; [reflexivity|].
  pose proof (int16_view_range data) as Hr.
  rewrite Forall_lookup in Hr. specialize (Hr _ _ Hv). cbv beta in Hr.
  unfold Qle, Qlt. simpl. lia.
Qed.

Lemma decode_chunk_shaped s buf :
  decode_chunk s = Ok buf -> chunk_shaped buf.
Proof.
  unfold decode_chunk. destruct (decode s) as [bytes|e]; [|discriminate].
  cbn [mbind Result_bind rbind]. intros H.
  apply decodeAudioData_Ok_inv in H as (_ & Hfr & ->).
  rewrite Nat.div_1_r in *. unfold chunk_shaped.
  cbn [numberOfChannels sampleRate buf_length channels].
  repeat split; try assumption.
  eexists. split; [reflexivity|]. split.
  - rewrite length_map, length_seq. reflexivity.
  - apply planar_mono_in_range. rewrite length_int16_view. lia.
Qed.

Lemma chunk_of_shaped msg buf : chunk_of msg = Some buf -> chunk_shaped buf.
Proof.
  unfold chunk_of. destruct (audio_payload msg) as [a|]; [|discriminate].
  destruct (truthy a) as [s|]; [|discriminate].
  destruct (decode_chunk s) as [b|] eqn:E; [|discriminate].
  intros [= <-]. exact (decode_chunk_shaped s b E).
Qed.

(** X12. Every buffer the application ever schedules is a chunk as the
    inbound path decodes it: one channel at 24 kHz, at least one frame,
    as many samples as frames, every sample a number from -1 (included)
    to 1 (excluded). *)
Theorem scheduled_buffers_shaped evs :
  Forall (fun s => chunk_shaped (src_buffer s)) (sourcesRef (run initial evs)).
Proof.
  assert (H : forall st,
    Forall (fun s => chunk_shaped (src_buffer s)) (sourcesRef st) ->
    Forall (fun s => chunk_shaped (src_buffer s)) (sourcesRef (run st evs))).
  { induction evs as [|ev evs IH]; intros st Hst; cbn [run foldl];
      [exact Hst|].
    apply IH. destruct (event_cases ev) as [(msg & now & ->)|Hev].
    - cbn [step].
      destruct (onmessage_effects st msg now) as [|_|buffer ctx Hb _ start];
        cbn [sourcesRef set_nextStartTime add_source]; try exact Hst.
      apply Forall_app. split; [exact Hst|].
      apply Forall_cons_2; [|apply Forall_nil_2].
      exact (chunk_of_shaped msg buffer Hb).
    - rewrite (proj1 (step_frame st ev Hev)). exact Hst. }
  apply H, Forall_nil_2.
Qed.

Lemma step_start_nonneg st ev :
  (0 <= nextStartTimeRef st)%Q ->
  Forall (fun s => 0 <= src_start s)%Q (sourcesRef st) ->
  Forall (fun s => 0 <= src_start s)%Q (sourcesRef (step st ev)).
Proof.
  intros Hc H. destruct (event_cases ev) as [(msg & now & ->)|Hev].
  - cbn [step].
    destruct (onmessage_effects st msg now) as [|_|buffer ctx _ _ start];
      cbn [sourcesRef set_nextStartTime add_source]; try exact H.
    apply Forall_app. split; [exact H|].
    apply Forall_cons_2; [|apply Forall_nil_2]. cbn [src_start].
    apply Qle_trans with (nextStartTimeRef st); [exact Hc|apply Q.le_max_l].
  - rewrite (proj1 (step_frame st ev Hev)). exact H.
Qed.

(** X13. In every state the application can reach the cursor is not
    negative, every scheduled source starts at a time that is not
    negative, and every scheduled source ends at or before the cursor. *)
Theorem sources_within_cursor evs :
  let st := run initial evs in
  (0 <= nextStartTimeRef st)%Q /\
  Forall (fun s => 0 <= src_start s /\ src_end s <= nextStartTimeRef st)%Q
         (sourcesRef st).
Proof.
  cbv zeta. split; [exact (run_cursor_mono initial evs)|].
  apply Forall_and. split; [|exact (proj2 (run_inv initial evs initial_inv))].
  assert (H : forall st, (0 <= nextStartTimeRef st)%Q ->
    Forall (fun s => 0 <= src_start s)%Q (sourcesRef st) ->
    Forall (fun s => 0 <= src_start s)%Q (sourcesRef (run st evs))).
  { induction evs as [|ev evs IH]; intros st Hc Hst; cbn [run foldl];
      [exact Hst|].
    apply IH; [|apply step_start_nonneg; assumption].
    apply Qle_trans with (nextStartTimeRef st);
      [exact Hc|apply step_cursor_mono]. }
  apply H; [apply Qle_refl|apply Forall_nil_2].
Qed.

(** * Further properties of the session lifecycle *)

(** X14. Stopping twice is stopping once: a second [stopLiveComm] finds
    the stored stream and input context again and changes nothing. *)
Theorem stopLiveComm_idempotent st :
  stopLiveComm (stopLiveComm st) = stopLiveComm st.
Proof.
  unfold stopLiveComm. destruct (liveSessionRef st) as [h|] eqn:Hh.
  - cbn [liveSessionRef setIsLiveActive close_AudioContext stop_tracks
         set_audioContexts set_micStreams].
    rewrite Hh. unfold setIsLiveActive, close_AudioContext, stop_tracks,
      set_audioContexts, set_micStreams.
    cbn [isLiveActive liveSessionRef audioContextRef nextStartTimeRef
         sourcesRef audioContexts sessions micStreams sent console].
    rewrite list_insert_insert_eq.
    rewrite list_alter_alter_eq. reflexivity.
  - cbn [liveSessionRef setIsLiveActive]. rewrite Hh. reflexivity.
Qed.

(** X15. Only the stop request releases anything: under every other
    event the microphone streams and the audio contexts that exist keep
    their state (new ones may be added after them). *)
Theorem only_stop_releases st ev :
  ev <> UserStop ->
  micStreams st `prefix_of` micStreams (step st ev) /\
  audioContexts st `prefix_of` audioContexts (step st ev).
Proof.
  intros Hev.
  destruct ev as [| sid | sid | msg now | sid | e | sid input |];
    cbn [step].
  - unfold startLiveComm. destruct (isLiveActive st); cbn.
    + split; reflexivity.
    + split; [reflexivity|]. apply prefix_app_r. reflexivity.
  - cbn. split; apply prefix_app_r; reflexivity.
  - split; reflexivity.
  - destruct (onmessage_keeps st msg now) as (_ & _ & _ & -> & _ & -> & _).
    split; reflexivity.
  - split; reflexivity.
  - split; reflexivity.
  - unfold onaudioprocess. destruct (outbound_payload input);
      split; reflexivity.
  - contradiction.
Qed.

Lemma only_stop_releases_witness :
  let st := run initial [UserStart; SessionOpen 0; MicGranted 0] in
  micStreams st `prefix_of` micStreams (step st (SessionClose 0)) /\
  audioContexts st `prefix_of` audioContexts (step st (SessionClose 0)).
Proof. apply only_stop_releases. discriminate. Defined.

Lemma resources_inv_initial : resources_inv initial.
Proof.
  repeat split; try discriminate; try apply Forall_nil_2.
Qed.

(** Adding a context after the existing ones keeps what is known of
    them. *)
Lemma resources_inv_new_context st rate :
  resources_inv st ->
  (rate = 24000%positive \/ rate = 16000%positive) ->
  let st' := new_AudioContext rate st in
  (forall i b, audioContexts st' !! i = Some (24000%positive, b) -> b = false) /\
  (forall c x, audioContexts st !! c = Some x -> audioContexts st' !! c = Some x) /\
  audioContexts st' !! length (audioContexts st) = Some (rate, false).
Proof.
  intros (H1 & _) Hrate. cbn [new_AudioContext set_audioContexts audioContexts].
  split; [|split].
  - intros i b Hi. apply lookup_app_Some in Hi as [Hi|[_ Hi]]; [eauto|].
    destruct (i - length (audioContexts st))%nat; [|discriminate].
    injection Hi as _ <-. reflexivity.
  - intros c x Hc. apply lookup_app_l_Some. exact Hc.
  - rewrite lookup_app_r by lia. rewrite Nat.sub_diag. reflexivity.
Qed.

Lemma resources_inv_step st ev : resources_inv st -> resources_inv (step st ev).
Proof.
  intros Hinv. pose proof Hinv as (H1 & H2 & H3 & H4).
  destruct ev as [| sid | sid | msg now | sid | e | sid input |];
    cbn [step].
  - (* UserStart *)
    unfold startLiveComm. destruct (isLiveActive st); [exact Hinv|].
    destruct (resources_inv_new_context st 24000 Hinv (or_introl eq_refl))
      as (N1 & N2 & N3).
    cbn [fst]. unfold resources_inv.
    cbn [new_AudioContext set_audioContexts set_audioContextRef set_sessions
         audioContexts audioContextRef liveSessionRef micStreams sourcesRef]
      in *.
    split; [exact N1|]. split; [intros c [= <-]; exact N3|]. split.
    + intros h Hh. destruct (H3 h Hh) as [[b Hb] Hm]. eauto.
    + eapply Forall_impl; [exact H4|]. cbv beta. eauto.
  - (* MicGranted *)
    unfold startLiveComm_resume.
    set (st1 := set_micStreams (micStreams st ++ [true]) st).
    assert (Hinv1 : resources_inv st1).
    { unfold resources_inv, st1.
      cbn [set_micStreams audioContexts audioContextRef liveSessionRef
           micStreams sourcesRef].
      repeat split; try assumption.
      - exact (proj1 (H3 h H)).
      - destruct (proj2 (H3 h H)) as [x Hx]. exists x.
        apply lookup_app_l_Some. exact Hx. }
    destruct (resources_inv_new_context st1 16000 Hinv1 (or_intror eq_refl))
      as (N1 & N2 & N3).
    unfold resources_inv.
    cbn [new_AudioContext set_audioContexts set_liveSessionRef set_micStreams
         audioContexts audioContextRef liveSessionRef micStreams sourcesRef
         st1 lh_inCtx lh_stream] in *.
    split; [exact N1|]. split; [eauto|]. split.
    + intros h [= <-]. cbn [lh_inCtx lh_stream]. split; [eauto|].
      rewrite lookup_app_r by lia. rewrite Nat.sub_diag. eauto.
    + eapply Forall_impl; [exact H4|]. cbv beta. eauto.
  - (* SessionOpen *) exact Hinv.
  - (* SessionMessage *)
    destruct (onmessage_effects st msg now) as [|_|buffer ctx _ Hctx start];
      try exact Hinv.
    unfold resources_inv.
    cbn [add_source set_nextStartTime audioContexts audioContextRef
         liveSessionRef micStreams sourcesRef].
    repeat split; try assumption.
    + exact (proj1 (H3 h H)).
    + exact (proj2 (H3 h H)).
    + apply Forall_app. split; [exact H4|].
      apply Forall_cons_2; [|apply Forall_nil_2]. exact (H2 ctx Hctx).
  - (* SessionClose *) exact Hinv.
  - (* SessionError *) exact Hinv.
  - (* AudioProcess *)
    unfold onaudioprocess. destruct (outbound_payload input); exact Hinv.
  - (* UserStop *)
    unfold stopLiveComm. destruct (liveSessionRef st) as [h|] eqn:Hh;
      [|exact Hinv].
    destruct (H3 h eq_refl) as [[b Hb] Hm].
    assert (Hkeep : forall c, audioContexts st !! c = Some (24000%positive, false) ->
      alter (fun c => (c.1, true)) (lh_inCtx h) (audioContexts st) !! c
      = Some (24000%positive, false)).
    { intros c Hc. rewrite list_lookup_alter_ne; [exact Hc|].
      intros <-. rewrite Hb in Hc. discriminate Hc. }
    unfold resources_inv.
    cbn [setIsLiveActive close_AudioContext stop_tracks set_audioContexts
         set_micStreams audioContexts audioContextRef liveSessionRef
         micStreams sourcesRef].
    split; [|split; [|split]].
    + intros i b' Hi. rewrite list_lookup_alter in Hi.
      destruct (decide (lh_inCtx h = i)) as [<-|_]; [|eauto].
      rewrite Hb in Hi. discriminate Hi.
    + eauto.
    + intros h' Hh'. rewrite Hh in Hh'. injection Hh' as <-. split.
      * exists true. rewrite list_lookup_alter_eq, Hb. reflexivity.
      * apply lookup_lt_is_Some. rewrite length_insert.
        apply lookup_lt_is_Some. exact Hm.
    + eapply Forall_impl; [exact H4|]. cbv beta. eauto.
Qed.

(** X16. In every state the application can reach, no output context
    (24 kHz) is closed, the output context reference points to an open
    output context, the stored session names an input context (16 kHz)
    and a microphone stream that exist, and every scheduled source plays
    on an open output context.  So stopping closes input contexts only;
    output contexts are never released. *)
Theorem resources_invariant evs : resources_inv (run initial evs).
Proof.
  assert (H : forall st, resources_inv st -> resources_inv (run st evs)).
  { induction evs as [|ev evs IH]; intros st Hst; cbn [run foldl];
      [exact Hst|].
    apply IH, resources_inv_step, Hst. }
  apply H, resources_inv_initial.
Qed.

(** X17. Pressing the button of the live panel never leaves the link
    marked active, and while the link is active it opens nothing: no
    session and no output context is added. *)
Theorem live_button_effect st :
  isLiveActive (live_button st) = false /\
  (Active st ->
     sessions (live_button st) = sessions st /\
     length (audioContexts (live_button st)) = length (audioContexts st) /\
     audioContextRef (live_button st) = audioContextRef st).
Proof.
  unfold live_button, Active. destruct (isLiveActive st) eqn:Hact.
  - split; [reflexivity|]. intros _.
    unfold stopLiveComm. destruct (liveSessionRef st); cbn;
      rewrite ?length_alter; auto.
  - split; [|discriminate]. unfold startLiveComm. rewrite Hact. exact Hact.
Qed.

(** * Properties of the chat and intel panels *)

(** X18. A conversation in which every request settles before the next
    message is sent: the history grows, exchange by exchange and in
    order, by the user message and, when the request was answered, the
    model message (a failed request leaves the user message alone); one
    request is made per exchange, the errors of the failed ones are
    logged in order, and the loading flag is down at the end. *)
Theorem conversation_history p
    (es : list (String.string * (Response + String.string))) :
  let p' := foldl exchange p es in
  chatHistory p' = chatHistory p ++ flat_map exchange_messages es /\
  requests p' = requests p ++ map (fun e => runDeepIntel e.1) es /\
  errors p' = errors p ++ flat_map failure es /\
  captures p' = captures p /\
  (es <> [] -> isLoading p' = false).
Proof.
  cbv zeta. revert p. induction es as [|e es IH]; intros p; cbn [foldl].
  - rewrite !app_nil_r. repeat split. contradiction.
  - destruct (IH (exchange p e)) as (Hh & Hr & He & Hc & Hl).
    rewrite Hh, Hr, He, Hc. cbn [flat_map map].
    assert (Hload : isLoading (exchange p e) = false).
    { unfold exchange. destruct e.2; reflexivity. }
    unfold exchange at 1 2 3 4, exchange_messages at 1, failure at 1,
      handleChat, handleChat_resolved, handleChat_rejected.
    destruct e as [msg [response|err]];
      cbn [fst snd chatHistory requests errors captures setChatHistory
           setIsLoading request console_error_panel app];
      rewrite <- ?app_assoc; repeat split;
      intros _; (destruct es as [|e' es]; [exact Hload|apply Hl; discriminate]).
Qed.

(** X19. Two messages in flight at once: each answer replaces the
    history by what its own call had captured plus its exchange.  When
    the first message is answered first, the second user message
    disappears until the second answer arrives, and then the first
    answer is lost; when the second is answered first, the late first
    answer wipes the second exchange.  The first answer to arrive lowers
    the loading flag although a request is still pending. *)
Theorem handleChat_overlap p a b (ra rb : Response) :
  let r1 := handleChat p a in
  let r2 := handleChat r1.1 b in
  let first_a := handleChat_resolved r2.1 r1.2 ra in
  let first_b := handleChat_resolved r2.1 r2.2 rb in
  chatHistory r2.1 = chatHistory p ++ [user_message a; user_message b] /\
  chatHistory first_a
    = chatHistory p ++ [user_message a; model_message (resp_text ra)] /\
  isLoading first_a = false /\
  chatHistory (handleChat_resolved first_a r2.2 rb)
    = chatHistory p ++
        [user_message a; user_message b; model_message (resp_text rb)] /\
  chatHistory (handleChat_resolved first_b r1.2 ra)
    = chatHistory p ++ [user_message a; model_message (resp_text ra)].
Proof.
  cbv zeta. unfold handleChat, handleChat_resolved.
  cbn [fst snd chatHistory isLoading setChatHistory setIsLoading request].
  rewrite <- !app_assoc. repeat split.
Qed.

Lemma research_captures p e :
  captures (research p e) = research_capture e ++ captures p /\
  requests (research p e) = requests p ++ [runSearchIntel e.1] /\
  errors (research p e) = errors p ++ failure e /\
  chatHistory (research p e) = chatHistory p /\
  isLoading (research p e) = false.
Proof.
  unfold research, research_capture, failure.
  destruct e as [query [[[response now1] now2]|err]]; cbn;
    rewrite ?app_nil_r; repeat split.
Qed.

Lemma intel_list_app_new e l :
  List.filter is_intel (research_capture e ++ l)
  = research_capture e ++ List.filter is_intel l.
Proof.
  unfold research_capture. destruct e.2 as [[[response now1] now2]|err];
    reflexivity.
Qed.

(** X20. A series of searches in which every request settles before the
    next is started: every answered search leaves one capture of type
    [intel] holding its query, the newest first and in front of the
    captures there were; the intel panel lists all of them, newest
    first, before what it listed at the start; a failed search leaves no
    capture and logs its error; the chat history is not touched. *)
Theorem research_history p
    (es : list (String.string * (Response * N * N + String.string))) :
  let p' := foldl research p es in
  captures p' = flat_map research_capture (rev es) ++ captures p /\
  intel_list p' = flat_map research_capture (rev es) ++ intel_list p /\
  requests p' = requests p ++ map (fun e => runSearchIntel e.1) es /\
  errors p' = errors p ++ flat_map failure es /\
  chatHistory p' = chatHistory p /\
  (es <> [] -> isLoading p' = false).
Proof.
  cbv zeta. revert p. induction es as [|e es IH]; intros p; cbn [foldl].
  - rewrite !app_nil_r. repeat split. contradiction.
  - destruct (IH (research p e)) as (Hc & Hi & Hr & He & Hh & Hl).
    destruct (research_captures p e) as (Rc & Rr & Re & Rh & Rl).
    rewrite Hc, Hi, Hr, He, Hh. unfold intel_list at 1. rewrite Rc, Rr, Re, Rh.
    cbn [rev map flat_map]. rewrite !flat_map_app. cbn [flat_map].
    rewrite !app_nil_r, intel_list_app_new, <- !app_assoc.
    repeat split. intros _.
    destruct es as [|e' es]; [exact Rl|apply Hl; discriminate].
Qed.

(** X21. Two searches in flight at once: the answer that arrives last
    puts back the captures its own call had captured, so the capture of
    the other search is lost and only one capture was added. *)
Theorem handleResearch_overlap p qa qb (ra rb : Response) n1 n2 n3 n4 :
  let r1 := handleResearch p qa in
  let r2 := handleResearch r1.1 qb in
  let pa := handleResearch_resolved r2.1 r1.2 qa ra n1 n2 in
  let pb := handleResearch_resolved pa r2.2 qb rb n3 n4 in
  captures pa = research_capture (qa, inl (ra, n1, n2)) ++ captures p /\
  captures pb = research_capture (qb, inl (rb, n3, n4)) ++ captures p /\
  length (captures pb) = S (length (captures p)).
Proof. cbv zeta. repeat split. Qed.

(** * Outbound order and an early stop *)

Lemma onaudioprocess_sent_one st sid input :
  exists payload, onaudioprocess st sid input = send sid payload st.
Proof.
  unfold onaudioprocess, outbound_payload. rewrite encode_Ok. eauto.
Qed.

Lemma step_sent st ev : sent (step st ev) = sent st ++ frame_of ev.
Proof.
  destruct ev as [| sid | sid | msg now | sid | e | sid input |];
    cbn [step frame_of]; rewrite ?app_nil_r; try reflexivity.
  - unfold startLiveComm. destruct (isLiveActive st); reflexivity.
  - apply (onmessage_keeps st msg now).
  - unfold onaudioprocess. destruct (outbound_payload input);
      [reflexivity | rewrite app_nil_r; reflexivity].
  - unfold stopLiveComm. destruct (liveSessionRef st); reflexivity.
Qed.

(** X22. Outbound frames leave in capture order: over any run of events
    what was sent grows by exactly one realtime input per capture
    callback, in the order of the callbacks, each carrying the session
    of its capture graph; no other event sends anything, and the
    callback does not look at the active flag. *)
Theorem sent_in_capture_order st evs :
  sent (run st evs) = sent st ++ flat_map frame_of evs /\
  (forall sid input, exists payload,
     frame_of (AudioProcess sid input) = [(sid, payload)] /\
     decode payload = Ok (int16_buffer (quantize input))).
Proof.
  split.
  - revert st. induction evs as [|ev evs IH]; intros st; cbn [run foldl flat_map].
    + rewrite app_nil_r. reflexivity.
    + fold (run (step st ev) evs). rewrite IH, step_sent, app_assoc.
      reflexivity.
  - intros sid input. cbn [frame_of]. unfold outbound_payload.
    rewrite encode_Ok. eexists. split; [reflexivity|].
    apply decode_b64_encode.
Qed.

(** X23. A stop that comes before the microphone is granted releases
    nothing: with no stored session it only lowers the active flag, and
    when the grant arrives afterwards the new stream is live, the
    capture graph is stored, and every capture callback still sends a
    frame, while the link is marked inactive. *)
Theorem stop_before_grant st sid :
  liveSessionRef st = None ->
  let stopped := stopLiveComm st in
  let st' := startLiveComm_resume stopped sid in
  stopped = setIsLiveActive false st /\
  isLiveActive st' = false /\
  micStreams st' = micStreams st ++ [true] /\
  (exists h, liveSessionRef st' = Some h /\
             lh_session h = sid /\
             micStreams st' !! lh_stream h = Some true /\
             audioContexts st' !! lh_inCtx h = Some (16000%positive, false)) /\
  (forall input,
     length (sent (onaudioprocess st' sid input)) = S (length (sent st'))).
Proof.
  intros Hnone. cbv zeta. unfold stopLiveComm. rewrite Hnone.
  split; [reflexivity|]. split; [reflexivity|]. split; [reflexivity|].
  split.
  - eexists. split; [reflexivity|]. cbn. split; [reflexivity|].
    split; rewrite lookup_app_r by lia; rewrite Nat.sub_diag; reflexivity.
  - intros input.
    destruct (onaudioprocess_sent_one
                (startLiveComm_resume (setIsLiveActive false st) sid)
                sid input) as (payload & ->).
    cbn [sent send]. rewrite length_app. cbn [length]. lia.
Qed.

Lemma stop_before_grant_witness :
  let st := run initial [UserStart; SessionOpen 0] in
  let stopped := stopLiveComm st in
  let st' := startLiveComm_resume stopped 0 in
  stopped = setIsLiveActive false st /\
  isLiveActive st' = false /\
  micStreams st' = micStreams st ++ [true] /\
  (exists h, liveSessionRef st' = Some h /\
             lh_session h = 0%nat /\
             micStreams st' !! lh_stream h = Some true /\
             audioContexts st' !! lh_inCtx h = Some (16000%positive, false)) /\
  (forall input,
     length (sent (onaudioprocess st' 0 input)) = S (length (sent st'))).
Proof. apply stop_before_grant. reflexivity. Defined.
